(** * shikiji: the bundle factory ([packages/shikiji/src/core/bundle-factory.ts])

    A shallow embedding of [createdBundledHighlighter] (the resolver and the
    [getHighlighter] it builds) and of [createSingletonShorthands] (the
    singleton slot [_shiki], [getShikiWithThemeLang] and the three
    shorthands), with the properties of the specification stated about it.

    Conventions of the embedding:
    - a JavaScript exception is the [Throw] case of the [Result] monad;
    - a bundle table (a JS object used as a map) is a [Table]: its own
      keys and the members it inherits, each a [gmap string _];
    - promises live in a store indexed by their identity, and the event loop
      is a step function over calls made by clients and settlements made by
      the engine. *)

From stdpp Require Import gmap strings list fin_maps.
From Stdlib Require Import Lia.

(** ** Exceptions *)

Section Results.
(** What the engine may raise; opaque to this layer. *)
Context {EngineError : Type}.

(** A thrown value: either [new Error(message)] of this file, or a failure
    of the engine passed through unchanged. *)
Inductive Error :=
| JsError (message : string)
| EngineFailure (e : EngineError).

Inductive Result (A : Type) :=
| Ok (a : A)
| Throw (e : Error).
Global Arguments Ok {A} a.
Global Arguments Throw {A} e.

Definition bind {A B} (r : Result A) (k : A -> Result B) : Result B :=
  match r with
  | Ok a => k a
  | Throw e => Throw e
  end.

(** [xs.map(f)] with a callback that may throw: elements are visited from
    left to right and the first exception aborts the whole map. *)
Fixpoint mapR {A B} (f : A -> Result B) (xs : list A) : Result (list B) :=
  match xs with
  | [] => Ok []
  | x :: xs' =>
      bind (f x) (fun y => bind (mapR f xs') (fun ys => Ok (y :: ys)))
  end.
End Results.

Arguments Error : clear implicits.
Arguments Result : clear implicits.

Notation "'try!' x := r 'in' k" := (bind r (fun x => k))
  (at level 10, x name, r at level 100, k at level 200).

(** ** The error raised for an id that is not in a bundle *)

Inductive BundleKind := Language | Theme.

Definition kindName (k : BundleKind) : string :=
  match k with
  | Language => "Language"
  | Theme => "Theme"
  end.

(** The template literals of lines 26 and 36:
    [`[shikiji] Language \`${lang}\` is not built-in.`] and
    [`[shikiji] Theme \`${theme}\` is not built-in.`]. *)
Definition notBundledMessage (k : BundleKind) (id : string) : string :=
  "[shikiji] " +:+ kindName k +:+ " `" +:+ id +:+ "` is not built-in.".

Definition NotBundled {EngineError} (k : BundleKind) (id : string)
  : Error EngineError :=
  JsError (notBundledMessage k id).

(** ** Values of [../types] and [./utils] *)

(** [MaybeArray<T> = T | T[]]. *)
Inductive MaybeArray (T : Type) :=
| One (x : T)
| Many (xs : list T).
Arguments One {T} x.
Arguments Many {T} xs.

(** Modelled from the spec: [toArray] of [./utils] is not among the sources.
    The spec speaks of the requested "theme(s)" and "language(s)" as the load
    set: a lone value stands for the one-element sequence, an array for
    itself. *)
Definition toArray {T} (x : MaybeArray T) : list T :=
  match x with
  | One v => [v]
  | Many vs => vs
  end.

(** Modelled from the spec: [isPlaintext] of [./utils] is not among the
    sources. The spec names one "plaintext marker"; this is the test that
    accepts the marker [plaintext] and nothing else. It is used only to
    instantiate the parameter [isPlaintext] of the resolver on examples. *)
Definition isPlaintextMarker (lang : string) : bool :=
  String.eqb lang "plaintext".

(** Promises and engine instances are told apart by their identity: the
    position at which they were created. *)
Abbreviation PromiseId := nat.
Abbreviation InstanceId := nat.

(** ** Bundle tables *)

(** A bundle table is a JavaScript object. The property access [table[id]]
    of lines 24 and 34 finds the table's own key and, failing that, a member
    the object inherits along its prototype chain: a table written as an
    object literal inherits the members of [Object.prototype]
    ([constructor], [toString], ...), a table made by [Object.create(null)]
    inherits nothing. An inherited member is held at the type the code gives
    to what it reads from the table. Own values are definitions, inherited
    members are functions or objects: all of them are truthy. *)
Record Table (V : Type) := {
  own : gmap string V;
  inherited : gmap string V;
}.
Arguments own {V} t.
Arguments inherited {V} t.

Global Instance table_lookup {V} : Lookup string V (Table V) :=
  fun id t =>
    match own t !! id with
    | Some v => Some v
    | None => inherited t !! id
    end.
Global Arguments table_lookup : simpl never.

(** ** [createdBundledHighlighter] *)

Section BundleFactory.
(** Types declared in [../types], which is not among the sources: they are
    parameters of the development. *)
Context {EngineError LanguageRegistration LanguageSource ThemeInput : Type}.
Context {WasmLoader OptionValue RenderOptions : Type}.

(** [LanguageInput]: the only value of it this file builds is the array
    literal [[]] of line 23; every other shape (a registration, a module, a
    getter) is handed on as it is. All of them are objects, hence truthy. *)
Inductive LanguageInput :=
| LangArray (regs : list LanguageRegistration)
| LangSource (x : LanguageSource).

(** [LanguageInput | BundledLangs | PlainTextLanguage], told apart by
    [typeof lang === 'string']. *)
Inductive LangRef :=
| LangId (id : string)
| LangInline (l : LanguageInput).

(** [ThemeInput | BundledThemes]. *)
Inductive ThemeRef :=
| ThemeId (id : string)
| ThemeInline (t : ThemeInput).

(** [BundledHighlighterOptions]: the two fields this file reads, both
    optional, and the properties it spreads on to the engine. *)
Record BundledHighlighterOptions := {
  themes : option (list ThemeRef);
  langs : option (list LangRef);
  others : gmap string OptionValue;
}.

(** The default argument [options = {}] of line 19. *)
Definition emptyOptions : BundledHighlighterOptions :=
  {| themes := None; langs := None; others := ∅ |}.

(** The object literal of lines 47-52. *)
Record HighlighterCoreOptions := {
  coreThemes : list ThemeInput;
  coreLangs : list LanguageInput;
  loadWasm : WasmLoader;
  coreOthers : gmap string OptionValue;
}.

(** [isPlaintext] of [./utils] is not among the sources: a parameter. *)
Variable isPlaintext : string -> bool.

(** The arguments of [createdBundledHighlighter]. *)
Variable bundledLanguages : Table LanguageInput.
Variable bundledThemes : Table ThemeInput.
Variable ladWasm : WasmLoader.

(** Lines 20-30. [bundledLanguages !! id] is the property access
    [bundledLanguages[lang]]; [!bundle] holds exactly when it finds nothing,
    what it can find being truthy. *)
Definition resolveLang (lang : LangRef) : Result EngineError LanguageInput :=
  match lang with
  | LangId id =>
      if isPlaintext id then Ok (LangArray [])
      else
        match bundledLanguages !! id with
        | None => Throw (NotBundled Language id)
        | Some bundle => Ok bundle
        end
  | LangInline l => Ok l
  end.

(** Lines 32-40. *)
Definition resolveTheme (theme : ThemeRef) : Result EngineError ThemeInput :=
  match theme with
  | ThemeId id =>
      match bundledThemes !! id with
      | None => Throw (NotBundled Theme id)
      | Some bundle => Ok bundle
      end
  | ThemeInline t => Ok t
  end.

(** Lines 42-52, up to the call of the engine: [getHighlighter] either
    throws while it resolves, or reaches [getHighlighterCore] with these
    options. Themes are resolved first, then languages. *)
Definition getHighlighterRequest (options : option BundledHighlighterOptions)
  : Result EngineError HighlighterCoreOptions :=
  let options := default emptyOptions options in
  try! _themes := mapR resolveTheme (default [] (themes options)) in
  try! langs' := mapR resolveLang (default [] (langs options)) in
  Ok {| coreThemes := _themes;
         coreLangs := langs';
         loadWasm := ladWasm;
         coreOthers := others options |}.

(** *** The object returned by [getHighlighter] (lines 54-65) *)

Inductive Arg :=
| ArgCode (code : string)
| ArgOptions (options : RenderOptions).

(** A call of an entry point of the returned highlighter. [Inherited] is a
    property the spread [...core] copies from the engine: any entry point
    other than the three the literal defines itself. *)
Inductive HighlighterCall :=
| CodeToHtml (code : string) (options : option RenderOptions)
| LoadLanguage (langs : list LangRef)
| LoadTheme (themes : list ThemeRef)
| Inherited (name : string) (args : list Arg).

(** A call of an entry point of the engine's own instance [core]. *)
Inductive CoreCall :=
| CoreCodeToHtml (code : string) (options : RenderOptions)
| CoreLoadLanguage (langs : list LanguageInput)
| CoreLoadTheme (themes : list ThemeInput)
| CoreProperty (name : string) (args : list Arg).

(** The empty object [{}], default of [codeToHtml]'s second parameter. *)
Variable emptyObject : RenderOptions.

(** What a call on the returned highlighter does: throw, or call [core]. *)
Definition highlighter (call : HighlighterCall) : Result EngineError CoreCall :=
  match call with
  | CodeToHtml code options =>
      Ok (CoreCodeToHtml code (default emptyObject options))
  | LoadLanguage langs =>
      try! resolved := mapR resolveLang langs in Ok (CoreLoadLanguage resolved)
  | LoadTheme themes =>
      try! resolved := mapR resolveTheme themes in Ok (CoreLoadTheme resolved)
  | Inherited name args => Ok (CoreProperty name args)
  end.

(** ** The engine, as far as this layer sees it *)

(** Modelled from the spec: the engine ([./core]) is not among the sources.
    An instance is "the engine's live, mutable object holding all currently
    loaded grammars and themes"; it is constructed with the resolved themes
    and languages, and its loads are "async, idempotent, incremental". *)
Record Engine := {
  loadedThemes : list ThemeInput;
  loadedLangs : list LanguageInput;
}.

Definition construct (options : HighlighterCoreOptions) : Engine :=
  {| loadedThemes := coreThemes options; loadedLangs := coreLangs options |}.

Definition perform (call : CoreCall) (e : Engine) : Engine :=
  match call with
  | CoreLoadTheme ts =>
      {| loadedThemes := loadedThemes e ++ ts; loadedLangs := loadedLangs e |}
  | CoreLoadLanguage ls =>
      {| loadedThemes := loadedThemes e; loadedLangs := loadedLangs e ++ ls |}
  | _ => e
  end.

(** ** Promises *)

Inductive Status (V : Type) :=
| Pending
| Fulfilled (v : V)
| Rejected (e : Error EngineError).
Global Arguments Pending {V}.
Global Arguments Fulfilled {V} v.
Global Arguments Rejected {V} e.

(** The promise of one [getHighlighter] call: the options it reached the
    engine with ([None] when it threw before), and its state. Its value is
    the highlighter of lines 54-65 around the instance the engine built. *)
Record HighlighterPromise := {
  engineOptions : option HighlighterCoreOptions;
  built : Status InstanceId;
}.

(** The promise of one [core.loadTheme] or [core.loadLanguage] call. *)
Record LoadPromise := {
  target : InstanceId;
  loadCall : CoreCall;
  loaded : Status unit;
}.

(** ** [createSingletonShorthands] *)

(** The parameter of [getShikiWithThemeLang] (line 74). *)
Record ThemeLang := {
  theme : MaybeArray string;
  lang : MaybeArray string;
}.

(** Where one call of [getShikiWithThemeLang] stands. *)
Inductive Task :=
| Returned (p : PromiseId)                 (* line 80: [return _shiki] *)
| AwaitShiki (p : PromiseId)               (* line 83: [await _shiki] *)
| AwaitLoads (s : InstanceId) (pt pl : PromiseId)  (* line 84 *)
| Done (r : Result EngineError InstanceId).

Record Call := {
  request : ThemeLang;
  task : Task;
}.

(** The closure of [createSingletonShorthands] applied to the
    [getHighlighter] above, together with the promises and instances it
    has created and two logs: every invocation of [getHighlighter] and
    every invocation of [getHighlighterCore]. *)
Record State := {
  _shiki : option PromiseId;
  highlighters : list HighlighterPromise;
  loads : list LoadPromise;
  engines : list Engine;
  factoryCalls : list BundledHighlighterOptions;
  engineCalls : list HighlighterCoreOptions;
  calls : list Call;
}.

Definition init : State :=
  {| _shiki := None; highlighters := []; loads := []; engines := [];
     factoryCalls := []; engineCalls := []; calls := [] |}.

Definition setShiki (p : PromiseId) (σ : State) : State :=
  {| _shiki := Some p; highlighters := highlighters σ; loads := loads σ;
     engines := engines σ; factoryCalls := factoryCalls σ;
     engineCalls := engineCalls σ; calls := calls σ |}.

Definition setHighlighters (hs : list HighlighterPromise) (σ : State) : State :=
  {| _shiki := _shiki σ; highlighters := hs; loads := loads σ;
     engines := engines σ; factoryCalls := factoryCalls σ;
     engineCalls := engineCalls σ; calls := calls σ |}.

Definition setLoads (ls : list LoadPromise) (σ : State) : State :=
  {| _shiki := _shiki σ; highlighters := highlighters σ; loads := ls;
     engines := engines σ; factoryCalls := factoryCalls σ;
     engineCalls := engineCalls σ; calls := calls σ |}.

Definition setEngines (es : list Engine) (σ : State) : State :=
  {| _shiki := _shiki σ; highlighters := highlighters σ; loads := loads σ;
     engines := es; factoryCalls := factoryCalls σ;
     engineCalls := engineCalls σ; calls := calls σ |}.

Definition logFactoryCall (o : BundledHighlighterOptions) (σ : State) : State :=
  {| _shiki := _shiki σ; highlighters := highlighters σ; loads := loads σ;
     engines := engines σ; factoryCalls := factoryCalls σ ++ [o];
     engineCalls := engineCalls σ; calls := calls σ |}.

Definition logEngineCall (o : HighlighterCoreOptions) (σ : State) : State :=
  {| _shiki := _shiki σ; highlighters := highlighters σ; loads := loads σ;
     engines := engines σ; factoryCalls := factoryCalls σ;
     engineCalls := engineCalls σ ++ [o]; calls := calls σ |}.

Definition setCalls (cs : list Call) (σ : State) : State :=
  {| _shiki := _shiki σ; highlighters := highlighters σ; loads := loads σ;
     engines := engines σ; factoryCalls := factoryCalls σ;
     engineCalls := engineCalls σ; calls := cs |}.

(** [getHighlighter(options)] as its caller sees it: an async function, so
    it returns a promise at once. The promise is already rejected when the
    resolution threw, and pending on [getHighlighterCore] otherwise. *)
Definition getHighlighter (options : BundledHighlighterOptions) (σ : State)
  : State * PromiseId :=
  let σ := logFactoryCall options σ in
  let p := length (highlighters σ) in
  match getHighlighterRequest (Some options) with
  | Throw e =>
      (setHighlighters
         (highlighters σ ++ [{| engineOptions := None; built := Rejected e |}]) σ,
       p)
  | Ok o =>
      let σ := logEngineCall o σ in
      (setHighlighters
         (highlighters σ ++ [{| engineOptions := Some o; built := Pending |}]) σ,
       p)
  end.

(** [s.loadTheme(...)] or [s.loadLanguage(...)] on the highlighter around
    instance [s]: throws, or returns the engine's promise. *)
Definition callLoad (s : InstanceId) (call : HighlighterCall) (σ : State)
  : Result EngineError (State * PromiseId) :=
  try! c := highlighter call in
  Ok (setLoads
        (loads σ ++ [{| target := s; loadCall := c; loaded := Pending |}]) σ,
      length (loads σ)).

(** Lines 84-88, entered with the awaited instance [s]: both loads are
    requested, theme first, before either is awaited. An exception of the
    second leaves the first one requested. *)
Definition requestLoads (req : ThemeLang) (s : InstanceId) (σ : State)
  : State * Task :=
  match callLoad s (LoadTheme (map ThemeId (toArray (theme req)))) σ with
  | Throw e => (σ, Done (Throw e))
  | Ok (σ1, pt) =>
      match callLoad s (LoadLanguage (map LangId (toArray (lang req)))) σ1 with
      | Throw e => (σ1, Done (Throw e))
      | Ok (σ2, pl) => (σ2, AwaitLoads s pt pl)
      end
  end.

(** [Promise.all([pt, pl])]: rejected as soon as one is, fulfilled once
    both are. *)
Definition all (t l : Status unit) : Status unit :=
  match t, l with
  | Rejected e, _ => Rejected e
  | _, Rejected e => Rejected e
  | Fulfilled _, Fulfilled _ => Fulfilled tt
  | _, _ => Pending
  end.

Definition builtOf (σ : State) (p : PromiseId) : Status InstanceId :=
  match highlighters σ !! p with
  | Some h => built h
  | None => Pending
  end.

Definition loadedOf (σ : State) (q : PromiseId) : Status unit :=
  match loads σ !! q with
  | Some l => loaded l
  | None => Pending
  end.

(** Run one call as far as it can go: a call suspended on a settled
    promise takes its continuation, any other stays where it is. *)
Definition resume (req : ThemeLang) (t : Task) (σ : State) : State * Task :=
  match t with
  | Returned p =>
      match builtOf σ p with
      | Pending => (σ, Returned p)
      | Fulfilled s => (σ, Done (Ok s))
      | Rejected e => (σ, Done (Throw e))
      end
  | AwaitShiki p =>
      match builtOf σ p with
      | Pending => (σ, AwaitShiki p)
      | Fulfilled s => requestLoads req s σ
      | Rejected e => (σ, Done (Throw e))
      end
  | AwaitLoads s pt pl =>
      match all (loadedOf σ pt) (loadedOf σ pl) with
      | Pending => (σ, AwaitLoads s pt pl)
      | Fulfilled _ => (σ, Done (Ok s))
      | Rejected e => (σ, Done (Throw e))
      end
  | Done r => (σ, Done r)
  end.

(** The object literal of lines 76-79. *)
Definition factoryOptions (options : ThemeLang) : BundledHighlighterOptions :=
  {| themes := Some (map ThemeId (toArray (theme options)));
     langs := Some (map LangId (toArray (lang options)));
     others := ∅ |}.

(** Lines 74-90 up to the first suspension. Awaiting a promise that is
    already settled suspends for no longer than the current job: the
    continuation is taken in the same step. *)
Definition getShikiWithThemeLang (options : ThemeLang) (σ : State) : State :=
  match _shiki σ with
  | None =>
      let '(σ1, p) := getHighlighter (factoryOptions options) σ in
      let σ2 := setShiki p σ1 in
      let '(σ3, t) := resume options (Returned p) σ2 in
      setCalls (calls σ3 ++ [{| request := options; task := t |}]) σ3
  | Some p =>
      let '(σ1, t) := resume options (AwaitShiki p) σ in
      setCalls (calls σ1 ++ [{| request := options; task := t |}]) σ1
  end.

(** The engine settles a pending construction: with an instance, or with
    an error. *)
Definition settleConstruction (p : PromiseId) (outcome : option EngineError)
    (σ : State) : State :=
  match highlighters σ !! p with
  | Some {| engineOptions := Some o; built := Pending |} =>
      match outcome with
      | None =>
          let s := length (engines σ) in
          setHighlighters
            (<[p := {| engineOptions := Some o; built := Fulfilled s |}]>
               (highlighters σ))
            (setEngines (engines σ ++ [construct o]) σ)
      | Some e =>
          setHighlighters
            (<[p := {| engineOptions := Some o;
                       built := Rejected (EngineFailure e) |}]>
               (highlighters σ)) σ
      end
  | _ => σ
  end.

(** The engine settles a pending load. *)
Definition settleLoad (q : PromiseId) (outcome : option EngineError)
    (σ : State) : State :=
  match loads σ !! q with
  | Some {| target := s; loadCall := c; loaded := Pending |} =>
      match outcome with
      | None =>
          setLoads
            (<[q := {| target := s; loadCall := c; loaded := Fulfilled tt |}]>
               (loads σ))
            (setEngines (alter (perform c) s (engines σ)) σ)
      | Some e =>
          setLoads
            (<[q := {| target := s; loadCall := c;
                       loaded := Rejected (EngineFailure e) |}]>
               (loads σ)) σ
      end
  | _ => σ
  end.

(** After a settlement every suspended call is resumed, oldest first: the
    reactions of a promise run before the engine settles anything else. *)
Fixpoint resumeAll (cs : list Call) (σ : State) : State * list Call :=
  match cs with
  | [] => (σ, [])
  | c :: cs' =>
      let '(σ1, t) := resume (request c) (task c) σ in
      let '(σ2, cs'') := resumeAll cs' σ1 in
      (σ2, {| request := request c; task := t |} :: cs'')
  end.

Definition wake (σ : State) : State :=
  let '(σ', cs) := resumeAll (calls σ) σ in setCalls cs σ'.

(** What happens to a factory: a client calls [getShikiWithThemeLang]
    (through one of the shorthands), or the engine settles a promise. *)
Inductive Event :=
| Ensure (options : ThemeLang)
| EngineBuilt (p : PromiseId) (outcome : option EngineError)
| EngineLoaded (q : PromiseId) (outcome : option EngineError).

Definition step (σ : State) (ev : Event) : State :=
  match ev with
  | Ensure options => getShikiWithThemeLang options σ
  | EngineBuilt p outcome => wake (settleConstruction p outcome σ)
  | EngineLoaded q outcome => wake (settleLoad q outcome σ)
  end.

Definition run (evs : list Event) : State := fold_left step evs init.

(** What the caller of call number [k] has got so far. *)
Definition outcome (σ : State) (k : nat)
  : option (Result EngineError InstanceId) :=
  match calls σ !! k with
  | Some {| task := Done r |} => Some r
  | _ => None
  end.

(** *** The three shorthands (lines 98-126) *)

(** [RequireKeys<..., 'theme' | 'lang'>]: the two keys read here, and the
    options object as the engine receives it. *)
Record CodeOptions := {
  optLang : string;
  optTheme : string;
  optObject : RenderOptions;
}.

(** [RequireKeys<CodeToHtmlThemesOptions, 'themes' | 'lang'>]: [themes]
    maps a role to a theme id or to [undefined]; its entries are listed in
    property order. *)
Record ThemesOptions := {
  optsLang : string;
  optsThemes : list (string * option string);
  optsObject : RenderOptions;
}.

Definition Object_values {V} (o : list (string * V)) : list V := map snd o.

(** JavaScript truthiness of a value that is a string or [undefined]. *)
Definition Boolean (v : option string) : bool :=
  match v with
  | None => false
  | Some EmptyString => false
  | Some _ => true
  end.

(** Whatever [filter(Boolean)] keeps is truthy. *)
Definition filtered (vs : list (option string))
  : forallb Boolean (List.filter Boolean vs) = true.
Proof.
  induction vs as [|v vs IH]; simpl; [reflexivity |].
  destruct (Boolean v) eqn:Hv; simpl; [rewrite Hv |]; exact IH.
Qed.

(** The cast [as T[]] of line 123 changes no value and drops none: it reads
    an array whose values are all truthy, hence all strings, as an array of
    ids. [undefined] is not in its domain. *)
Definition asId (v : option string) : Boolean v = true -> string :=
  match v with
  | Some id => fun _ => id
  | None => fun H => match Bool.diff_false_true H return string with end
  end.

Fixpoint asIds (vs : list (option string))
  : forallb Boolean vs = true -> list string :=
  match vs with
  | [] => fun _ => []
  | v :: vs' =>
      fun H =>
        asId v (proj1 (andb_prop _ _ H)) :: asIds vs' (proj2 (andb_prop _ _ H))
  end.

Inductive Shorthand :=
| codeToHtml (code : string) (options : CodeOptions)
| codeToThemedTokens (code : string) (options : CodeOptions)
| codeToHtmlThemes (code : string) (options : ThemesOptions).

(** The argument each shorthand gives to [getShikiWithThemeLang]. *)
Definition ensureOptions (sh : Shorthand) : ThemeLang :=
  match sh with
  | codeToHtml _ options | codeToThemedTokens _ options =>
      {| theme := One (optTheme options); lang := One (optLang options) |}
  | codeToHtmlThemes _ options =>
      {| theme :=
           Many (asIds (List.filter Boolean (Object_values (optsThemes options)))
                   (filtered (Object_values (optsThemes options))));
         lang := One (optsLang options) |}
  end.

(** The call each shorthand makes on the highlighter it was given. *)
Definition delegate (sh : Shorthand) : HighlighterCall :=
  match sh with
  | codeToHtml code options => CodeToHtml code (Some (optObject options))
  | codeToThemedTokens code options =>
      Inherited "codeToThemedTokens" [ArgCode code; ArgOptions (optObject options)]
  | codeToHtmlThemes code options =>
      Inherited "codeToHtmlThemes" [ArgCode code; ArgOptions (optsObject options)]
  end.

(** ** What the proofs maintain *)

(** Loads only add to an instance. *)
Definition grows (e e' : Engine) : Prop :=
  loadedThemes e ⊆ loadedThemes e' /\ loadedLangs e ⊆ loadedLangs e'.

(** The effect of a completed load is in the instance. *)
Definition performed (c : CoreCall) (e : Engine) : Prop :=
  match c with
  | CoreLoadTheme ts => ts ⊆ loadedThemes e
  | CoreLoadLanguage ls => ls ⊆ loadedLangs e
  | _ => True
  end.

Definition resolvedThemes (req : ThemeLang) : Result EngineError (list ThemeInput) :=
  mapR resolveTheme (map ThemeId (toArray (theme req))).

Definition resolvedLangs (req : ThemeLang) : Result EngineError (list LanguageInput) :=
  mapR resolveLang (map LangId (toArray (lang req))).

(** The instance holds every theme and language of the request. *)
Definition supports (e : Engine) (req : ThemeLang) : Prop :=
  exists ts ls,
    resolvedThemes req = Ok ts /\ resolvedLangs req = Ok ls /\
    ts ⊆ loadedThemes e /\ ls ⊆ loadedLangs e.

(** The slot, the one promise it can hold, and the one instance that
    promise can deliver. *)
Definition slotInv (σ : State) : Prop :=
  match _shiki σ with
  | None =>
      highlighters σ = [] /\ engines σ = [] /\
      factoryCalls σ = [] /\ engineCalls σ = []
  | Some p =>
      p = 0 /\
      exists h fo,
        highlighters σ = [h] /\ factoryCalls σ = [fo] /\
        match getHighlighterRequest (Some fo) with
        | Throw e =>
            engineOptions h = None /\ built h = Rejected e /\
            engineCalls σ = [] /\ engines σ = []
        | Ok o =>
            engineOptions h = Some o /\ engineCalls σ = [o] /\
            match built h with
            | Fulfilled s => s = 0 /\ exists e, engines σ = [e] /\ grows (construct o) e
            | _ => engines σ = []
            end
        end
  end.

Definition loadsInv (σ : State) : Prop :=
  forall q l, loads σ !! q = Some l ->
    exists e, engines σ !! target l = Some e /\
              (loaded l = Fulfilled tt -> performed (loadCall l) e).

Definition slotHolds (σ : State) (s : InstanceId) : Prop :=
  exists p, _shiki σ = Some p /\ builtOf σ p = Fulfilled s.

Definition taskInv (σ : State) (req : ThemeLang) (t : Task) : Prop :=
  match t with
  | Returned p => _shiki σ = Some p /\ factoryCalls σ = [factoryOptions req]
  | AwaitShiki p => _shiki σ = Some p
  | AwaitLoads s pt pl =>
      slotHolds σ s /\
      exists ts ls,
        resolvedThemes req = Ok ts /\ resolvedLangs req = Ok ls /\
        (exists st, loads σ !! pt =
           Some {| target := s; loadCall := CoreLoadTheme ts; loaded := st |}) /\
        (exists st, loads σ !! pl =
           Some {| target := s; loadCall := CoreLoadLanguage ls; loaded := st |})
  | Done (Ok s) =>
      slotHolds σ s /\ exists e, engines σ !! s = Some e /\ supports e req
  | Done (Throw _) => True
  end.

Definition callsInv (σ : State) (cs : list Call) : Prop :=
  Forall (fun c => taskInv σ (request c) (task c)) cs.

Definition invariant (σ : State) : Prop :=
  slotInv σ /\ loadsInv σ /\ callsInv σ (calls σ) /\
  (_shiki σ = None -> calls σ = []).

(** A load just requested: pending, on an instance that exists. *)
Definition fresh (σ : State) (l : LoadPromise) : Prop :=
  loaded l = Pending /\ is_Some (engines σ !! target l).

(** What resuming does to a call: same request, and a call that has
    returned stays as it is. *)
Definition resumed (c c' : Call) : Prop :=
  request c' = request c /\ forall r, task c = Done r -> task c' = Done r.

(** How a state may change while calls are resumed and promises settle:
    the slot and the two logs stay, settled promises stay as they are,
    loads keep their target and call, instances only grow. *)
Definition extends (σ σ' : State) : Prop :=
  _shiki σ' = _shiki σ /\
  factoryCalls σ' = factoryCalls σ /\
  engineCalls σ' = engineCalls σ /\
  (forall p, builtOf σ p <> Pending -> builtOf σ' p = builtOf σ p) /\
  (forall q l, loads σ !! q = Some l ->
     exists st, loads σ' !! q =
       Some {| target := target l; loadCall := loadCall l; loaded := st |}) /\
  (forall s e, engines σ !! s = Some e ->
     exists e', engines σ' !! s = Some e' /\ grows e e').

End BundleFactory.

Arguments LanguageInput : clear implicits.
Arguments LangRef : clear implicits.
Arguments ThemeRef : clear implicits.

(** ** A small bundle, used by the examples *)

(** Registrations and theme definitions are named by strings here; the
    engine reports failures as strings. *)
(** The names an object literal inherits from [Object.prototype]. *)
Definition objectPrototypeNames : list string :=
  ["constructor"; "__proto__"; "hasOwnProperty"; "isPrototypeOf";
   "propertyIsEnumerable"; "toLocaleString"; "toString"; "valueOf";
   "__defineGetter__"; "__defineSetter__"; "__lookupGetter__";
   "__lookupSetter__"].

(** The table written [{ key: value, ... }]; [member name] is the inherited
    member of that name. *)
Definition objectLiteral {V} (member : string -> V) (properties : gmap string V)
  : Table V :=
  {| own := properties;
     inherited :=
       list_to_map (map (fun name => (name, member name)) objectPrototypeNames) |}.

Definition exampleLanguages : Table (LanguageInput string unit) :=
  objectLiteral (fun _ => LangSource ())
    {[ "js" := LangArray ["source.js"]; "plaintext" := LangSource () ]}.

Definition exampleThemes : Table string :=
  objectLiteral (fun name => "Object.prototype." +:+ name)
    {[ "nord" := "nord.json"; "vitesse-dark" := "vitesse-dark.json" ]}.

Definition noLanguages : Table (LanguageInput string unit) :=
  objectLiteral (fun _ => LangSource ()) ∅.

Definition noThemes : Table string :=
  objectLiteral (fun name => "Object.prototype." +:+ name) ∅.

(** The events of the examples: the engine's errors are strings. *)
Definition exampleRun (evs : list (@Event string))
  : @State string string unit string unit unit unit :=
  run isPlaintextMarker exampleLanguages exampleThemes () () evs.

Definition exampleInit : @State string string unit string unit unit unit := init.

Definition nordJs : ThemeLang := {| theme := One "nord"; lang := One "js" |}.

Definition darkJs : ThemeLang := {| theme := One "vitesse-dark"; lang := One "js" |}.

Definition darkPlaintext : ThemeLang :=
  {| theme := One "vitesse-dark"; lang := One "plaintext" |}.

(** Two callers before the construction settles; then the engine delivers
    the instance and completes the two loads of the second caller. *)
Definition twoCallers (second : ThemeLang) : list (@Event string) :=
  [Ensure nordJs; Ensure second;
   EngineBuilt 0 None; EngineLoaded 0 None; EngineLoaded 1 None].

(** One caller, and the engine fails to construct. *)
Definition failedStart : list (@Event string) :=
  [Ensure nordJs; EngineBuilt 0 (Some "wasm failed")].


Definition emptyLight : list (string * option string) :=
  [("light", Some ""); ("dark", Some "nord")].

(** What the delivery of instance [s] does to a call that was waiting for
    the promise in the slot: the first caller is given the instance; any
    other caller has its loads requested, unless one of its ids does not
    resolve. *)
Definition delivered
    {EngineError LanguageRegistration LanguageSource ThemeInput : Type}
    (isPlaintext : string -> bool)
    (bundledLanguages :
       Table (LanguageInput LanguageRegistration LanguageSource))
    (bundledThemes : Table ThemeInput)
    (s : InstanceId) (c c' : @Call EngineError) : Prop :=
  request c' = request c /\
  match task c with
  | Returned _ => task c' = Done (Ok s)
  | AwaitShiki _ =>
      match resolvedThemes bundledThemes (request c),
            resolvedLangs isPlaintext bundledLanguages (request c) with
      | Ok _, Ok _ => exists pt pl, task c' = AwaitLoads s pt pl
      | Throw e, _ => task c' = Done (Throw e)
      | Ok _, Throw e => task c' = Done (Throw e)
      end
  | _ => True
  end.

(** The loads the delivery of instance [s] makes a waiting call request, in
    the order it requests them: none for the first caller, who is handed
    the promise itself; for any other caller the theme load if its themes
    resolve, and then the language load if its languages resolve too. *)
Definition requested
    {EngineError LanguageRegistration LanguageSource ThemeInput RenderOptions : Type}
    (isPlaintext : string -> bool)
    (bundledLanguages :
       Table (LanguageInput LanguageRegistration LanguageSource))
    (bundledThemes : Table ThemeInput)
    (s : InstanceId) (c : @Call EngineError)
  : list (@LoadPromise EngineError LanguageRegistration LanguageSource
            ThemeInput RenderOptions) :=
  match task c with
  | AwaitShiki _ =>
      match resolvedThemes (EngineError := EngineError) bundledThemes
              (request c) with
      | Throw _ => []
      | Ok ts =>
          {| target := s; loadCall := CoreLoadTheme ts; loaded := Pending |}
          :: match resolvedLangs (EngineError := EngineError) isPlaintext
                     bundledLanguages (request c) with
             | Throw _ => []
             | Ok ls =>
                 [{| target := s; loadCall := CoreLoadLanguage ls;
                     loaded := Pending |}]
             end
      end
  | _ => []
  end.

(** A caller, then the engine delivers, then a caller whose language is not
    bundled. *)
Definition unknownLanguage : ThemeLang :=
  {| theme := One "vitesse-dark"; lang := One "rust" |}.

Definition unknownTheme : ThemeLang :=
  {| theme := One "solarized"; lang := One "js" |}.

Definition started : list (@Event string) := [Ensure nordJs; EngineBuilt 0 None].

Definition waiting : list (@Event string) :=
  [Ensure nordJs; Ensure darkJs; Ensure unknownLanguage].

(** [themes: { light: 'nord', dark: 'vitesse-dark', dim: 'nord' }]. *)
Definition threeRoles : list (string * option string) :=
  [("light", Some "nord"); ("dark", Some "vitesse-dark"); ("dim", Some "nord")].

Definition mixedOptions : @BundledHighlighterOptions string unit string unit :=
  {| themes := Some [ThemeId "nord"; ThemeInline "mine.json"];
     langs := Some [LangId "js"; LangId "plaintext"];
     others := ∅ |}.

Definition twoMissing : @BundledHighlighterOptions string unit string unit :=
  {| themes := Some [ThemeId "nord"; ThemeId "solarized"];
     langs := Some [LangId "rust"];
     others := ∅ |}.


(** * Properties *)

(** ** Strings and the result monad *)

Lemma append_length (s t : string) :
  String.length (s +:+ t) = String.length s + String.length t.
Proof. induction s as [|c s IH]; simpl; [done | by rewrite IH]. Qed.

Lemma append_cancel_r (s1 s2 t : string) : s1 +:+ t = s2 +:+ t -> s1 = s2.
Proof.
  revert s2. induction s1 as [|c s1 IH]; intros [|c' s2] H; simpl in H.
  - done.
  - apply (f_equal String.length) in H.
    rewrite !append_length in H. simpl in H. lia.
  - apply (f_equal String.length) in H. simpl in H.
    rewrite !append_length in H. simpl in H. lia.
  - injection H as -> H. f_equal. by apply IH.
Qed.

(** The message of a [NotBundled] error tells which kind of id was missing
    and which id it was. *)
Lemma notBundledMessage_inj k k' id id' :
  notBundledMessage k id = notBundledMessage k' id' -> k = k' /\ id = id'.
Proof.
  unfold notBundledMessage. destruct k, k'; simpl; intros H; try discriminate H.
  - injection H as H. split; [done |].
    apply (append_cancel_r id id' "` is not built-in."). exact H.
  - injection H as H. split; [done |].
    apply (append_cancel_r id id' "` is not built-in."). exact H.
Qed.

Lemma NotBundled_inj {EngineError} k k' id id' :
  NotBundled (EngineError := EngineError) k id = NotBundled k' id' ->
  k = k' /\ id = id'.
Proof.
  intros H. apply notBundledMessage_inj.
  exact (f_equal (fun e => match e with JsError m => m | _ => "" end) H).
Qed.

Section MapR.
Context {EngineError A B : Type}.
Variable f : A -> Result EngineError B.

(** A successful map resolved every element, in order. *)
Lemma mapR_Ok (xs : list A) (ys : list B) :
  mapR f xs = Ok ys <-> Forall2 (fun x y => f x = Ok y) xs ys.
Proof.
  revert ys. induction xs as [|x xs IH]; intros ys; simpl.
  - split.
    + intros [= <-]. constructor.
    + intros H. by inversion H.
  - destruct (f x) as [y|e] eqn:Hx; simpl.
    + destruct (mapR f xs) as [ys'|e] eqn:Hxs; simpl.
      * split.
        -- intros [= <-]. constructor; [done | by apply IH].
        -- intros H. inversion H as [|? y' ? ys'' Hy Hys]; subst.
           apply IH in Hys. congruence.
      * split; [done |].
        intros H. inversion H as [|? y' ? ys'' Hy Hys]; subst.
        apply IH in Hys. discriminate.
    + split; [done |].
      intros H. inversion H; subst. congruence.
Qed.

Lemma mapR_length (xs : list A) (ys : list B) :
  mapR f xs = Ok ys -> length ys = length xs.
Proof. intros H. apply mapR_Ok in H. symmetry. by eapply Forall2_length. Qed.

Lemma mapR_stops (pre post : list A) (x : A) ys e :
  mapR f pre = Ok ys -> f x = Throw e -> mapR f (pre ++ x :: post) = Throw e.
Proof.
  revert ys. induction pre as [|a pre IH]; intros ys Hpre Hx; simpl.
  - by rewrite Hx.
  - simpl in Hpre. destruct (f a) as [b|]; [simpl in * | done].
    destruct (mapR f pre) as [bs|] eqn:Hbs; [| done].
    by rewrite (IH bs).
Qed.

(** A failed map failed at its first element that throws: everything
    before it resolved, nothing after it was looked at. *)
Lemma mapR_Throw (xs : list A) (e : Error EngineError) :
  mapR f xs = Throw e <->
  exists pre x post ys,
    xs = pre ++ x :: post /\ mapR f pre = Ok ys /\ f x = Throw e.
Proof.
  split.
  - induction xs as [|x xs IH]; simpl; [done |].
    destruct (f x) as [y|e'] eqn:Hx; simpl.
    + destruct (mapR f xs) as [ys'|e'] eqn:Hxs; simpl; [done |].
      intros [= ->].
      destruct (IH eq_refl) as (pre & x' & post & ys & -> & Hpre & Hx').
      exists (x :: pre), x', post, (y :: ys). simpl.
      by rewrite Hx, Hpre.
    + intros [= ->]. by exists [], x, xs, [].
  - intros (pre & x & post & ys & -> & Hpre & Hx). by eapply mapR_stops.
Qed.

Lemma mapR_Throw_elem (xs : list A) (e : Error EngineError) :
  mapR f xs = Throw e -> exists x, x ∈ xs /\ f x = Throw e.
Proof.
  intros (pre & x & post & ys & -> & _ & Hx)%mapR_Throw.
  exists x. split; [| done]. set_solver.
Qed.

Lemma mapR_is_Throw (xs : list A) (x : A) (e : Error EngineError) :
  x ∈ xs -> f x = Throw e -> exists e', mapR f xs = Throw e'.
Proof.
  intros Hin Hx. destruct (mapR f xs) as [ys|e'] eqn:H; [| eauto].
  apply mapR_Ok in H.
  apply list_elem_of_lookup in Hin as [i Hi].
  destruct (Forall2_lookup_l _ _ _ i x H Hi) as (y & _ & Hy).
  congruence.
Qed.
End MapR.

(** ** Property access on a table *)

Lemma table_lookup_unfold {V} (t : Table V) (id : string) :
  t !! id =
    match own t !! id with
    | Some v => Some v
    | None => inherited t !! id
    end.
Proof. reflexivity. Qed.

(** An own key hides an inherited member of the same name. *)
Lemma table_lookup_own {V} (t : Table V) (id : string) (v : V) :
  own t !! id = Some v -> t !! id = Some v.
Proof. intros H. by rewrite table_lookup_unfold, H. Qed.

Lemma table_lookup_inherited {V} (t : Table V) (id : string) :
  own t !! id = None -> t !! id = inherited t !! id.
Proof. intros H. by rewrite table_lookup_unfold, H. Qed.

(** The access finds nothing exactly when the table neither has the key nor
    inherits it. *)
Lemma table_lookup_None {V} (t : Table V) (id : string) :
  t !! id = None <-> own t !! id = None /\ inherited t !! id = None.
Proof.
  rewrite table_lookup_unfold. destruct (own t !! id) as [v|].
  - split; [done | by intros [? _]].
  - split; [done | by intros [_ ?]].
Qed.

(** ** The resolver and [getHighlighter] *)

Ltac unfold_request := unfold getHighlighterRequest; simpl.
Ltac unfold_getHighlighter := unfold getHighlighter.

Section Resolver.
Context {EngineError LanguageRegistration LanguageSource ThemeInput : Type}.
Context {WasmLoader OptionValue RenderOptions : Type}.
Variable isPlaintext : string -> bool.
Variable bundledLanguages :
  Table (LanguageInput LanguageRegistration LanguageSource).
Variable bundledThemes : Table ThemeInput.
Variable ladWasm : WasmLoader.
Variable emptyObject : RenderOptions.

Local Abbreviation resolveLang :=
  (@resolveLang EngineError _ _ isPlaintext bundledLanguages).
Local Abbreviation resolveTheme := (@resolveTheme EngineError _ bundledThemes).
Local Abbreviation getHighlighterRequest :=
  (@getHighlighterRequest EngineError _ _ _ _ OptionValue
     isPlaintext bundledLanguages bundledThemes ladWasm).
Local Abbreviation highlighter :=
  (@highlighter EngineError _ _ _ _
     isPlaintext bundledLanguages bundledThemes emptyObject).
Local Abbreviation getHighlighter :=
  (@getHighlighter EngineError _ _ _ _ OptionValue RenderOptions
     isPlaintext bundledLanguages bundledThemes ladWasm).

Lemma resolveTheme_Throw ref e :
  resolveTheme ref = Throw e ->
  exists id, ref = ThemeId id /\ bundledThemes !! id = None
             /\ e = NotBundled Theme id.
Proof.
  destruct ref as [id|t]; simpl; [| done].
  destruct (bundledThemes !! id) eqn:Hid; [done |].
  intros [= <-]. eauto.
Qed.

Lemma resolveLang_Throw ref e :
  resolveLang ref = Throw e ->
  exists id, ref = LangId id /\ isPlaintext id = false
             /\ bundledLanguages !! id = None /\ e = NotBundled Language id.
Proof.
  destruct ref as [id|l]; simpl; [| done].
  destruct (isPlaintext id) eqn:Hp; [done |].
  destruct (bundledLanguages !! id) eqn:Hid; [done |].
  intros [= <-]. eauto.
Qed.

(** C2, as amended. A string id that is not a plaintext id resolves to the
    language table's value when it is a key of the table, and fails with
    [NotBundled Language id] when the table neither has it as a key nor
    inherits a member of that name; a theme id resolves to the theme
    table's value when it is a key of the table and fails with
    [NotBundled Theme id] when the table neither has nor inherits it; a
    reference that is not a string is returned unchanged; and the error
    tells the kind and the id apart from every other. *)
Theorem resolve_by_table (id : string) :
  (isPlaintext id = false ->
   forall v, own bundledLanguages !! id = Some v ->
             resolveLang (LangId id) = Ok v) /\
  (isPlaintext id = false ->
   own bundledLanguages !! id = None -> inherited bundledLanguages !! id = None ->
   resolveLang (LangId id) = Throw (NotBundled Language id)) /\
  (forall v, own bundledThemes !! id = Some v -> resolveTheme (ThemeId id) = Ok v) /\
  (own bundledThemes !! id = None -> inherited bundledThemes !! id = None ->
   resolveTheme (ThemeId id) = Throw (NotBundled Theme id)) /\
  (forall l, resolveLang (LangInline l) = Ok l) /\
  (forall t, resolveTheme (ThemeInline t) = Ok t) /\
  (forall k k' id',
     NotBundled (EngineError := EngineError) k id = NotBundled k' id' ->
     k = k' /\ id = id').
Proof.
  repeat split; simpl.
  - intros -> v Hown. by rewrite (table_lookup_own _ _ _ Hown).
  - intros -> Hown Hinh.
    by rewrite (proj2 (table_lookup_None _ _) (conj Hown Hinh)).
  - intros v Hown. by rewrite (table_lookup_own _ _ _ Hown).
  - intros Hown Hinh.
    by rewrite (proj2 (table_lookup_None _ _) (conj Hown Hinh)).
  - by eapply NotBundled_inj.
  - by eapply NotBundled_inj.
Qed.

(** C3. Whatever the language table holds, and whether or not the marker
    is one of its keys, a plaintext marker resolves to the empty list and
    does not throw. *)
Theorem resolveLang_plaintext (marker : string) :
  isPlaintext marker = true -> resolveLang (LangId marker) = Ok (LangArray []).
Proof. intros H. simpl. by rewrite H. Qed.

(** C4, as amended. When the options name a theme id that the theme table
    neither has as a key nor inherits, or a language id that is not a
    plaintext id and that the language table neither has nor inherits
    ([table !! id = None]: the property access finds nothing),
    [getHighlighter] fails with [NotBundled] for the first such id (themes
    are resolved before languages, each list from left to right), and the
    engine is not touched: [getHighlighterCore] is not called, no instance
    exists, and the promise returned is rejected from the start. *)
Theorem getHighlighter_not_bundled (options : BundledHighlighterOptions)
    (σ : State) :
  (exists id, ThemeId id ∈ default [] (themes options)
              /\ bundledThemes !! id = None) \/
  (exists id, LangId id ∈ default [] (langs options)
              /\ isPlaintext id = false /\ bundledLanguages !! id = None) ->
  exists k id,
    getHighlighterRequest (Some options) = Throw (NotBundled k id) /\
    match k with
    | Theme =>
        exists pre post ts,
          default [] (themes options) = pre ++ ThemeId id :: post /\
          mapR resolveTheme pre = Ok ts /\ bundledThemes !! id = None
    | Language =>
        exists pre post ts ls,
          mapR resolveTheme (default [] (themes options)) = Ok ts /\
          default [] (langs options) = pre ++ LangId id :: post /\
          mapR resolveLang pre = Ok ls /\
          isPlaintext id = false /\ bundledLanguages !! id = None
    end /\
    engineCalls (getHighlighter options σ).1 = engineCalls σ /\
    engines (getHighlighter options σ).1 = engines σ /\
    highlighters (getHighlighter options σ).1 =
      highlighters σ
        ++ [{| engineOptions := None; built := Rejected (NotBundled k id) |}] /\
    (getHighlighter options σ).2 = length (highlighters σ).
Proof.
  intros Hmissing.
  assert (exists k id,
    getHighlighterRequest (Some options) = Throw (NotBundled k id) /\
    match k with
    | Theme =>
        exists pre post ts,
          default [] (themes options) = pre ++ ThemeId id :: post /\
          mapR resolveTheme pre = Ok ts /\ bundledThemes !! id = None
    | Language =>
        exists pre post ts ls,
          mapR resolveTheme (default [] (themes options)) = Ok ts /\
          default [] (langs options) = pre ++ LangId id :: post /\
          mapR resolveLang pre = Ok ls /\
          isPlaintext id = false /\ bundledLanguages !! id = None
    end) as (k & id & Hreq & Hfirst).
  { unfold_request.
    destruct (mapR resolveTheme (default [] (themes options)))
      as [ts|e] eqn:Hts; simpl.
    - destruct Hmissing as [(id & Hin & Hnone)|(id & Hin & Hp & Hnone)].
      + destruct (mapR_is_Throw resolveTheme _ (ThemeId id)
                    (NotBundled Theme id) Hin) as [e' He'].
        * simpl. by rewrite Hnone.
        * congruence.
      + destruct (mapR_is_Throw resolveLang _ (LangId id)
                    (NotBundled Language id) Hin) as [e' He'].
        * simpl. by rewrite Hp, Hnone.
        * rewrite He'. simpl.
          apply mapR_Throw in He' as (pre & x & post & ls & Hl & Hpre & Hx).
          apply resolveLang_Throw in Hx as (id' & -> & Hp' & Hnone' & ->).
          exists Language, id'. split; [done |].
          exists pre, post, ts, ls. done.
    - apply mapR_Throw in Hts as (pre & x & post & ts & Hl & Hpre & Hx).
      apply resolveTheme_Throw in Hx as (id' & -> & Hnone' & ->).
      exists Theme, id'. split; [done |]. exists pre, post, ts. done. }
  exists k, id. split; [done |]. split; [done |].
  unfold_getHighlighter. rewrite Hreq. simpl. done.
Qed.

(** C9, as amended. A [themes] or [langs] field that is omitted or is the
    empty list resolves to the empty sequence without an error (and so do
    options omitted altogether); a list resolves to a sequence of its own
    length whenever it resolves, so no list of ids, of whitespace or not,
    resolves to the empty sequence: its ids are looked up like any other. *)
Theorem getHighlighter_empty_lists (options : BundledHighlighterOptions) :
  (themes options = None \/ themes options = Some [] ->
   mapR resolveTheme (default [] (themes options)) = Ok []) /\
  (langs options = None \/ langs options = Some [] ->
   mapR resolveLang (default [] (langs options)) = Ok []) /\
  (themes options = None \/ themes options = Some [] ->
   langs options = None \/ langs options = Some [] ->
   getHighlighterRequest (Some options) =
     Ok {| coreThemes := []; coreLangs := []; loadWasm := ladWasm;
           coreOthers := others options |}) /\
  getHighlighterRequest None =
    Ok {| coreThemes := []; coreLangs := []; loadWasm := ladWasm;
          coreOthers := ∅ |} /\
  (forall o, getHighlighterRequest (Some options) = Ok o ->
     length (coreThemes o) = length (default [] (themes options)) /\
     length (coreLangs o) = length (default [] (langs options))).
Proof.
  split; [| split; [| split; [| split]]].
  - by intros [-> | ->].
  - by intros [-> | ->].
  - unfold_request.
    by intros [-> | ->] [-> | ->].
  - done.
  - intros o. unfold_request.
    destruct (mapR resolveTheme _) as [ts|] eqn:Hts; [simpl | done].
    destruct (mapR resolveLang _) as [ls|] eqn:Hls; [simpl | done].
    intros [= <-]. simpl. split; by eapply mapR_length.
Qed.

(** C7. On the object [getHighlighter] returns, [loadLanguage] and
    [loadTheme] give every argument to [resolveLang], respectively
    [resolveTheme], and call the engine's entry point with the resolved
    values in the same order (so bundle ids are accepted); when an argument
    does not resolve they throw its error and the engine is not called.
    Every other entry point goes to the engine's own with the arguments it
    was given; [codeToHtml] called without options hands the engine the
    empty object of its default parameter. *)
Theorem highlighter_entry_points :
  (forall langs call,
     highlighter (LoadLanguage langs) = Ok call <->
     exists resolved,
       call = CoreLoadLanguage resolved /\
       Forall2 (fun ref r => resolveLang ref = Ok r) langs resolved) /\
  (forall themes call,
     highlighter (LoadTheme themes) = Ok call <->
     exists resolved,
       call = CoreLoadTheme resolved /\
       Forall2 (fun ref r => resolveTheme ref = Ok r) themes resolved) /\
  (forall langs e,
     highlighter (LoadLanguage langs) = Throw e <->
     exists pre ref post rs,
       langs = pre ++ ref :: post /\ mapR resolveLang pre = Ok rs /\
       resolveLang ref = Throw e) /\
  (forall themes e,
     highlighter (LoadTheme themes) = Throw e <->
     exists pre ref post rs,
       themes = pre ++ ref :: post /\ mapR resolveTheme pre = Ok rs /\
       resolveTheme ref = Throw e) /\
  (forall name args,
     highlighter (Inherited name args) = Ok (CoreProperty name args)) /\
  (forall code options,
     highlighter (CodeToHtml code (Some options)) =
       Ok (CoreCodeToHtml code options)) /\
  (forall code,
     highlighter (CodeToHtml code None) = Ok (CoreCodeToHtml code emptyObject)).
Proof.
  repeat apply conj; try done.
  - intros langs call. simpl.
    destruct (mapR resolveLang langs) as [rs|e] eqn:H; simpl.
    + apply mapR_Ok in H. split.
      * intros [= <-]. eauto.
      * intros (rs' & -> & H'). apply mapR_Ok in H, H'. congruence.
    + split; [done |]. intros (rs' & -> & H'%mapR_Ok). congruence.
  - intros themes call. simpl.
    destruct (mapR resolveTheme themes) as [rs|e] eqn:H; simpl.
    + apply mapR_Ok in H. split.
      * intros [= <-]. eauto.
      * intros (rs' & -> & H'). apply mapR_Ok in H, H'. congruence.
    + split; [done |]. intros (rs' & -> & H'%mapR_Ok). congruence.
  - intros langs e. rewrite <- mapR_Throw. simpl.
    destruct (mapR resolveLang langs); simpl; split; congruence.
  - intros themes e. rewrite <- mapR_Throw. simpl.
    destruct (mapR resolveTheme themes); simpl; split; congruence.
Qed.

(** *** More on what [getHighlighter] hands to the engine *)

Lemma request_Throw (options : option BundledHighlighterOptions) e :
  getHighlighterRequest options = Throw e -> exists k id, e = NotBundled k id.
Proof.
  unfold_request.
  destruct (mapR resolveTheme _) as [ts|et] eqn:Hts; simpl.
  - destruct (mapR resolveLang _) as [ls|el] eqn:Hls; simpl; [done |].
    intros [= <-]. apply mapR_Throw_elem in Hls as (ref & _ & Href).
    apply resolveLang_Throw in Href as (id & _ & _ & _ & ->). eauto.
  - intros [= <-]. apply mapR_Throw_elem in Hts as (ref & _ & Href).
    apply resolveTheme_Throw in Href as (id & _ & _ & ->). eauto.
Qed.

(** X1. [getHighlighter] reaches the engine exactly when every theme and
    every language reference resolves, and then the engine receives one
    definition for each reference, in the order of the request, together
    with the loader given to [createdBundledHighlighter] and the remaining
    options as they were. *)
Theorem getHighlighter_request_shape
    (options : BundledHighlighterOptions) (o : HighlighterCoreOptions) :
  getHighlighterRequest (Some options) = Ok o <->
  Forall2 (fun ref t => resolveTheme ref = Ok t)
    (default [] (themes options)) (coreThemes o) /\
  Forall2 (fun ref l => resolveLang ref = Ok l)
    (default [] (langs options)) (coreLangs o) /\
  loadWasm o = ladWasm /\ coreOthers o = others options.
Proof.
  unfold_request. split.
  - destruct (mapR resolveTheme _) as [ts|] eqn:Hts; [simpl | done].
    destruct (mapR resolveLang _) as [ls|] eqn:Hls; [simpl | done].
    intros [= <-]. simpl. by rewrite <- !mapR_Ok.
  - destruct o as [ts ls w rest]. simpl.
    intros (Hts%mapR_Ok & Hls%mapR_Ok & -> & ->).
    by rewrite Hts, Hls.
Qed.

(** X2. Themes are resolved before languages: when the theme table neither
    has nor inherits some theme id of the request ([bundledThemes !! id =
    None]: the property access finds nothing), [getHighlighter] fails with
    [NotBundled] for a theme id of the request that the table neither has
    nor inherits, whatever the languages are, resolvable or not. *)
Theorem getHighlighter_theme_error_first
    (options : BundledHighlighterOptions) (id : string) :
  ThemeId id ∈ default [] (themes options) ->
  bundledThemes !! id = None ->
  exists id',
    getHighlighterRequest (Some options) = Throw (NotBundled Theme id') /\
    ThemeId id' ∈ default [] (themes options) /\
    bundledThemes !! id' = None.
Proof.
  intros Hin Hnone.
  destruct (mapR_is_Throw resolveTheme _ (ThemeId id) (NotBundled Theme id) Hin)
    as [e He].
  { simpl. by rewrite Hnone. }
  unfold_request. rewrite He. simpl.
  apply mapR_Throw_elem in He as (ref & Href & Hthrow).
  apply resolveTheme_Throw in Hthrow as (id' & -> & Hnone' & ->).
  by exists id'.
Qed.

Lemma mapR_inline_themes (ts : list ThemeInput) :
  mapR resolveTheme (map ThemeInline ts) = Ok ts.
Proof. induction ts as [|t ts IH]; simpl; [done | by rewrite IH]. Qed.

Lemma mapR_inline_langs
    (ls : list (LanguageInput LanguageRegistration LanguageSource)) :
  mapR resolveLang (map LangInline ls) = Ok ls.
Proof. induction ls as [|l ls IH]; simpl; [done | by rewrite IH]. Qed.

(** X3. Definitions given inline never fail and are never replaced, whatever
    the tables hold: [getHighlighter] constructs the engine with them as they
    are, and [loadTheme] and [loadLanguage] of the returned object forward
    them unchanged. *)
Theorem inline_definitions_pass_through
    (ts : list ThemeInput)
    (ls : list (LanguageInput LanguageRegistration LanguageSource))
    (rest : gmap string OptionValue) :
  getHighlighterRequest
    (Some {| themes := Some (map ThemeInline ts);
             langs := Some (map LangInline ls); others := rest |})
  = Ok {| coreThemes := ts; coreLangs := ls; loadWasm := ladWasm;
          coreOthers := rest |} /\
  highlighter (LoadTheme (map ThemeInline ts)) = Ok (CoreLoadTheme ts) /\
  highlighter (LoadLanguage (map LangInline ls)) = Ok (CoreLoadLanguage ls).
Proof.
  split; [| split].
  - unfold_request. by rewrite mapR_inline_themes, mapR_inline_langs.
  - simpl. by rewrite mapR_inline_themes.
  - simpl. by rewrite mapR_inline_langs.
Qed.

(** X12. The property access does not tell own keys from inherited members:
    an id that is not a key of the table but names a member the table
    inherits (as [toString] does on a table written as an object literal)
    resolves to that member, raises no error, and [getHighlighter] hands
    the member to the engine as a definition. *)
Theorem inherited_names_resolve (id : string) :
  (forall v,
     own bundledThemes !! id = None -> inherited bundledThemes !! id = Some v ->
     resolveTheme (ThemeId id) = Ok v) /\
  (forall v,
     isPlaintext id = false ->
     own bundledLanguages !! id = None -> inherited bundledLanguages !! id = Some v ->
     resolveLang (LangId id) = Ok v) /\
  (forall v rest,
     isPlaintext id = false ->
     own bundledLanguages !! id = None -> inherited bundledLanguages !! id = Some v ->
     getHighlighterRequest
       (Some {| themes := None; langs := Some [LangId id]; others := rest |})
     = Ok {| coreThemes := []; coreLangs := [v]; loadWasm := ladWasm;
             coreOthers := rest |}).
Proof.
  split; [| split].
  - intros v Hown Hinh. simpl. by rewrite (table_lookup_inherited _ _ Hown), Hinh.
  - intros v Hp Hown Hinh. simpl.
    by rewrite Hp, (table_lookup_inherited _ _ Hown), Hinh.
  - intros v rest Hp Hown Hinh. unfold_request.
    by rewrite Hp, (table_lookup_inherited _ _ Hown), Hinh.
Qed.

End Resolver.

(** ** The singleton *)

Ltac unfold_setters :=
  unfold setShiki, setHighlighters, setLoads, setEngines, logFactoryCall,
    logEngineCall, setCalls in *.
Ltac unfold_resume := unfold resume, requestLoads, callLoad in *.
Ltac unfold_status := unfold builtOf, loadedOf in *.
Ltac unfold_invariants :=
  unfold slotInv, loadsInv, slotHolds, supports, resolvedThemes, resolvedLangs in *.
Ltac unfold_ensure := unfold getShikiWithThemeLang, getHighlighter in *.
Ltac unfold_settle := unfold settleConstruction, settleLoad in *.
Ltac unfold_wake := unfold wake in *.
Ltac unfold_outcome := unfold outcome in *.
Ltac unfold_highlighter := unfold highlighter in *.
Ltac unfold_factoryOptions := unfold factoryOptions in *.
Ltac unfold_run := unfold run in *.

Section Engines.
Context {LanguageRegistration LanguageSource ThemeInput RenderOptions : Type}.
Implicit Types e : @Engine LanguageRegistration LanguageSource ThemeInput.
Implicit Types c : @CoreCall LanguageRegistration LanguageSource ThemeInput RenderOptions.

Lemma grows_refl e : grows e e.
Proof. by split. Qed.

Lemma grows_trans e1 e2 e3 : grows e1 e2 -> grows e2 e3 -> grows e1 e3.
Proof. intros [? ?] [? ?]. split; set_solver. Qed.

Lemma perform_grows c e : grows e (perform c e).
Proof. destruct c; split; simpl; set_solver. Qed.

Lemma performed_perform c e : performed c (perform c e).
Proof. destruct c; simpl; set_solver. Qed.

Lemma performed_grows c e e' : grows e e' -> performed c e -> performed c e'.
Proof. intros [? ?]. destruct c; simpl; set_solver. Qed.

Lemma alter_grows (es : list Engine) s c i e :
  es !! i = Some e ->
  exists e', alter (perform c) s es !! i = Some e' /\ grows e e'.
Proof.
  intros Hi. destruct (decide (s = i)) as [->|Hne].
  - exists (perform c e). rewrite list_lookup_alter_eq, Hi.
    split; [reflexivity | apply perform_grows].
  - exists e. rewrite list_lookup_alter_ne by done.
    split; [done | apply grows_refl].
Qed.
End Engines.

Section Singleton.
Context {EngineError LanguageRegistration LanguageSource ThemeInput : Type}.
Context {WasmLoader OptionValue RenderOptions : Type}.
Variable isPlaintext : string -> bool.
Variable bundledLanguages :
  Table (LanguageInput LanguageRegistration LanguageSource).
Variable bundledThemes : Table ThemeInput.
Variable ladWasm : WasmLoader.
Variable emptyObject : RenderOptions.

Local Abbreviation State :=
  (@State EngineError LanguageRegistration LanguageSource ThemeInput
     WasmLoader OptionValue RenderOptions).
Local Abbreviation resolveTheme := (@resolveTheme EngineError _ bundledThemes).
Local Abbreviation resolveLang :=
  (@resolveLang EngineError _ _ isPlaintext bundledLanguages).
Local Abbreviation getHighlighterRequest :=
  (@getHighlighterRequest EngineError _ _ _ _ OptionValue
     isPlaintext bundledLanguages bundledThemes ladWasm).
Local Abbreviation getHighlighter :=
  (getHighlighter isPlaintext bundledLanguages bundledThemes ladWasm).
Local Abbreviation resume :=
  (resume isPlaintext bundledLanguages bundledThemes emptyObject).
Local Abbreviation resumeAll :=
  (resumeAll isPlaintext bundledLanguages bundledThemes emptyObject).
Local Abbreviation wake :=
  (wake isPlaintext bundledLanguages bundledThemes emptyObject).
Local Abbreviation getShikiWithThemeLang :=
  (getShikiWithThemeLang isPlaintext bundledLanguages bundledThemes ladWasm
     emptyObject).
Local Abbreviation step :=
  (step isPlaintext bundledLanguages bundledThemes ladWasm emptyObject).
Local Abbreviation run :=
  (@run EngineError _ _ _ _ OptionValue _
     isPlaintext bundledLanguages bundledThemes ladWasm emptyObject).
Local Abbreviation resolvedThemes :=
  (@resolvedThemes EngineError _ bundledThemes).
Local Abbreviation resolvedLangs :=
  (@resolvedLangs EngineError _ _ isPlaintext bundledLanguages).
Local Abbreviation supports :=
  (@supports EngineError _ _ _ isPlaintext bundledLanguages bundledThemes).
Local Abbreviation slotInv :=
  (slotInv isPlaintext bundledLanguages bundledThemes ladWasm).
Local Abbreviation taskInv :=
  (taskInv isPlaintext bundledLanguages bundledThemes).
Local Abbreviation callsInv :=
  (callsInv isPlaintext bundledLanguages bundledThemes).
Local Abbreviation invariant :=
  (invariant isPlaintext bundledLanguages bundledThemes ladWasm).

Implicit Types σ : State.
Implicit Types req : ThemeLang.

(** *** States only extend *)

Lemma extends_refl σ : extends σ σ.
Proof.
  split; [| split; [| split; [| split; [| split]]]]; try done.
  - intros q [s c st] Hq. by exists st.
  - intros s e He. exists e. split; [done | apply grows_refl].
Qed.

Lemma extends_trans σ1 σ2 σ3 : extends σ1 σ2 -> extends σ2 σ3 -> extends σ1 σ3.
Proof.
  intros (Hs & Hf & Hc & Hb & Hl & He) (Hs' & Hf' & Hc' & Hb' & Hl' & He').
  split; [| split; [| split; [| split; [| split]]]].
  - congruence.
  - congruence.
  - congruence.
  - intros p Hp. rewrite Hb', Hb; [done | done |]. by rewrite Hb.
  - intros q l Hq. destruct (Hl q l Hq) as [st Hq2].
    destruct (Hl' q _ Hq2) as [st' Hq3]. by exists st'.
  - intros s e Hs1. destruct (He s e Hs1) as (e2 & Hs2 & Hg).
    destruct (He' s e2 Hs2) as (e3 & Hs3 & Hg').
    exists e3. split; [done | by eapply grows_trans].
Qed.

Lemma supports_grows e e' req : grows e e' -> supports e req -> supports e' req.
Proof.
  intros [Ht Hl] (ts & ls & ? & ? & ? & ?).
  exists ts, ls. repeat split; try done; set_solver.
Qed.

Lemma slotHolds_extends σ σ' s : extends σ σ' -> slotHolds σ s -> slotHolds σ' s.
Proof.
  intros (Hs & _ & _ & Hb & _) (p & Hp & Hbuilt).
  exists p. split; [congruence |]. rewrite Hb; [done | by rewrite Hbuilt].
Qed.

Lemma taskInv_extends σ σ' req t :
  extends σ σ' -> taskInv σ req t -> taskInv σ' req t.
Proof.
  intros Hext. pose proof Hext as (Hs & Hf & _ & Hb & Hl & He).
  destruct t as [p|p|s pt pl|[s|e]]; simpl.
  - intros [? ?]. split; congruence.
  - congruence.
  - intros (Hh & ts & ls & Hts & Hls & [st Ht] & [st' Hl']).
    split; [by eapply slotHolds_extends |].
    exists ts, ls. repeat split; try done.
    + destruct (Hl _ _ Ht) as [st2 ?]. by exists st2.
    + destruct (Hl _ _ Hl') as [st2 ?]. by exists st2.
  - intros (Hh & e & Hse & Hsup).
    split; [by eapply slotHolds_extends |].
    destruct (He _ _ Hse) as (e' & ? & ?).
    exists e'. split; [done | by eapply supports_grows].
  - done.
Qed.

Lemma callsInv_extends σ σ' cs :
  extends σ σ' -> callsInv σ cs -> callsInv σ' cs.
Proof.
  intros Hext H. eapply Forall_impl; [exact H |].
  intros c. by apply taskInv_extends.
Qed.

(** *** Requesting loads only adds pending promises *)

Lemma extends_setLoads σ new : extends σ (setLoads (loads σ ++ new) σ).
Proof.
  split; [| split; [| split; [| split; [| split]]]]; try done.
  - intros q [s c st] Hq. exists st. simpl. by apply lookup_app_l_Some.
  - intros s e He. exists e. split; [done | apply grows_refl].
Qed.

Lemma slotInv_setLoads σ ls : slotInv σ -> slotInv (setLoads ls σ).
Proof. intros H. exact H. Qed.

Lemma loadsInv_setLoads σ new :
  loadsInv σ -> Forall (fresh σ) new -> loadsInv (setLoads (loads σ ++ new) σ).
Proof.
  intros Hinv Hnew q l. simpl. intros [Hq|[_ Hq]]%lookup_app_Some.
  - exact (Hinv q l Hq).
  - rewrite Forall_lookup in Hnew. destruct (Hnew _ _ Hq) as [Hp [e He]].
    exists e. split; [done |]. rewrite Hp. done.
Qed.

Lemma setLoads_nil σ : setLoads (loads σ ++ []) σ = σ.
Proof. destruct σ. unfold_setters. simpl. by rewrite app_nil_r. Qed.

Lemma setLoads_app σ new new' :
  setLoads (loads (setLoads (loads σ ++ new) σ) ++ new') (setLoads (loads σ ++ new) σ)
  = setLoads (loads σ ++ (new ++ new')) σ.
Proof. unfold_setters. simpl. by rewrite app_assoc. Qed.

Lemma fresh_setLoads σ ls l : fresh σ l -> fresh (setLoads ls σ) l.
Proof. done. Qed.

Lemma all_Fulfilled (t l : Status (EngineError := EngineError) unit) u :
  all t l = Fulfilled u -> t = Fulfilled tt /\ l = Fulfilled tt.
Proof. destruct t as [|[]|], l as [|[]|]; simpl; by intros. Qed.

Lemma request_factoryOptions req o :
  getHighlighterRequest (Some (factoryOptions req)) = Ok o ->
  resolvedThemes req = Ok (coreThemes o) /\ resolvedLangs req = Ok (coreLangs o).
Proof.
  unfold_request. unfold_invariants.
  destruct (mapR resolveTheme _) as [ts|]; [simpl | done].
  destruct (mapR resolveLang _) as [ls|]; [simpl | done].
  by intros [= <-].
Qed.

(** What a fulfilled promise in the slot tells. *)
Lemma slot_fulfilled σ p s :
  slotInv σ -> _shiki σ = Some p -> builtOf σ p = Fulfilled s ->
  exists fo o e,
    p = 0 /\ s = 0 /\ factoryCalls σ = [fo] /\
    getHighlighterRequest (Some fo) = Ok o /\
    engines σ = [e] /\ grows (construct o) e.
Proof.
  unfold_invariants. unfold_status. intros Hslot Hp Hb. rewrite Hp in Hslot.
  destruct Hslot as (-> & h & fo & Hh & Hfo & Hreq).
  rewrite Hh in Hb. simpl in Hb.
  destruct (getHighlighterRequest (Some fo)) as [o|e] eqn:Ho.
  - destruct Hreq as (_ & _ & Hbuilt). rewrite Hb in Hbuilt.
    destruct Hbuilt as (-> & e & He & Hg). by exists fo, o, e.
  - destruct Hreq as (_ & Hrej & _). congruence.
Qed.

(** Resuming a call keeps its invariant and only requests loads. *)
Lemma resume_ok req t σ :
  slotInv σ -> loadsInv σ -> taskInv σ req t ->
  exists new t',
    resume req t σ = (setLoads (loads σ ++ new) σ, t') /\
    Forall (fresh σ) new /\
    taskInv (setLoads (loads σ ++ new) σ) req t'.
Proof.
  intros Hslot Hloads Htask.
  assert (forall t', taskInv σ req t' ->
    exists new t'', (σ, t') = (setLoads (loads σ ++ new) σ, t'') /\
      Forall (fresh σ) new /\
      taskInv (setLoads (loads σ ++ new) σ) req t'') as Hstay.
  { intros t' Ht'. exists [], t'. rewrite setLoads_nil. by repeat split. }
  destruct t as [p|p|s pt pl|r]; unfold_resume.
  - destruct Htask as [Hp Hfo].
    destruct (builtOf σ p) as [|s|e] eqn:Hb; apply Hstay; simpl; [done | | done].
    destruct (slot_fulfilled σ p s Hslot Hp Hb)
      as (fo & o & e & -> & -> & Hfo' & Ho & He & [Hgt Hgl]).
    split; [by exists 0 |].
    exists e. rewrite He. split; [done |].
    rewrite Hfo in Hfo'. injection Hfo' as <-.
    apply request_factoryOptions in Ho as [Hts Hls].
    by exists (coreThemes o), (coreLangs o).
  - simpl in Htask.
    destruct (builtOf σ p) as [|s|e] eqn:Hb; [by apply Hstay | | by apply Hstay].
    destruct (slot_fulfilled σ p s Hslot Htask Hb)
      as (fo & o & e & -> & -> & Hfo' & Ho & He & Hg).
    unfold_highlighter. fold (resolvedThemes req). fold (resolvedLangs req).
    destruct (resolvedThemes req) as [ts|et] eqn:Hts; simpl; [| by apply Hstay].
    destruct (resolvedLangs req) as [ls|el] eqn:Hls; simpl.
    + eexists [_; _], _. split; [| split].
      * unfold_setters. simpl. rewrite <- app_assoc. reflexivity.
      * repeat constructor; simpl; rewrite He; by eexists.
      * simpl. split; [by exists 0 |].
        exists ts, ls. repeat split; try done.
        -- eexists. by apply list_lookup_middle.
        -- eexists. rewrite length_app. simpl.
           rewrite (lookup_app_r _ _ _) by lia.
           replace (length (loads σ) + 1 - length (loads σ)) with 1 by lia.
           reflexivity.
    + eexists [_], _. split; [reflexivity | split].
      * repeat constructor; simpl; rewrite He; by eexists.
      * done.
  - destruct Htask as (Hh & ts & ls & Hts & Hls & [st Ht] & [st' Hl]).
    destruct (all (loadedOf σ pt) (loadedOf σ pl)) as [|u|e] eqn:Hall;
      apply Hstay; simpl; [by eauto 10 | | done].
    apply all_Fulfilled in Hall as [Hpt Hpl]. unfold_status.
    rewrite Ht in Hpt. rewrite Hl in Hpl. simpl in *. subst.
    destruct (Hloads _ _ Ht) as (e & He & Hdone).
    destruct (Hloads _ _ Hl) as (e' & He' & Hdone').
    simpl in *. rewrite He in He'. injection He' as <-.
    split; [done |]. exists e. split; [done |].
    exists ts, ls. repeat split; try done; [by apply Hdone | by apply Hdone'].
  - by apply Hstay.
Qed.

Lemma resumeAll_ok cs σ :
  slotInv σ -> loadsInv σ -> callsInv σ cs ->
  exists new cs',
    resumeAll cs σ = (setLoads (loads σ ++ new) σ, cs') /\
    Forall (fresh σ) new /\
    callsInv (setLoads (loads σ ++ new) σ) cs' /\
    Forall2 resumed cs cs'.
Proof.
  revert σ. induction cs as [|c cs IH]; intros σ Hslot Hloads Hcalls.
  - exists [], []. rewrite setLoads_nil. simpl. repeat split; constructor.
  - apply Forall_cons in Hcalls as [Hc Hcs].
    destruct (resume_ok _ _ _ Hslot Hloads Hc) as (new1 & t1 & E1 & F1 & T1).
    set (σ1 := setLoads (loads σ ++ new1) σ) in *.
    destruct (IH σ1) as (new2 & cs2 & E2 & F2 & C2 & R2).
    + exact Hslot.
    + by apply loadsInv_setLoads.
    + eapply callsInv_extends; [apply extends_setLoads | done].
    + exists (new1 ++ new2), ({| request := request c; task := t1 |} :: cs2).
      simpl. rewrite E1, E2. unfold σ1. rewrite setLoads_app.
      split; [done |]. split; [| split].
      * apply Forall_app. split; [done | exact F2].
      * apply Forall_cons. split; simpl.
        -- eapply taskInv_extends; [| exact T1].
           rewrite <- setLoads_app. apply extends_setLoads.
        -- unfold σ1 in C2. by rewrite setLoads_app in C2.
      * constructor; [| done]. split; [done |].
        simpl. intros r Hr. rewrite Hr in E1. by injection E1 as _ <-.
Qed.

Lemma wake_ok σ :
  slotInv σ -> loadsInv σ -> callsInv σ (calls σ) ->
  exists new cs',
    wake σ = setCalls cs' (setLoads (loads σ ++ new) σ) /\
    Forall (fresh σ) new /\
    callsInv (setLoads (loads σ ++ new) σ) cs' /\
    Forall2 resumed (calls σ) cs'.
Proof.
  intros Hslot Hloads Hcalls.
  destruct (resumeAll_ok _ _ Hslot Hloads Hcalls) as (new & cs' & E & F & C & R).
  exists new, cs'. unfold_wake. by rewrite E.
Qed.

(** *** Settlements *)

Lemma settleConstruction_ok p out σ :
  slotInv σ -> loadsInv σ ->
  slotInv (settleConstruction p out σ) /\
  loadsInv (settleConstruction p out σ) /\
  extends σ (settleConstruction p out σ) /\
  calls (settleConstruction p out σ) = calls σ.
Proof.
  intros Hslot Hloads. unfold_settle.
  destruct (highlighters σ !! p) as [[[o|] [|s|e]]|] eqn:Hp;
    try (by repeat split; try done; apply extends_refl).
  assert (built_ne : forall hs' p',
    builtOf σ p' <> Pending ->
    (<[p := hs']> (highlighters σ)) !! p' = highlighters σ !! p').
  { intros hs' p' Hb. apply list_lookup_insert_ne. intros <-.
    unfold_status. by rewrite Hp in Hb. }
  unfold_invariants.
  destruct (_shiki σ) as [p0|] eqn:Hs.
  2: { destruct Hslot as (Hh & _). by rewrite Hh in Hp. }
  destruct Hslot as (-> & h & fo & Hh & Hfo & Hreq).
  rewrite Hh in Hp. destruct p as [|p]; [| done]. injection Hp as ->.
  destruct (getHighlighterRequest (Some fo)) as [o'|e'] eqn:Ho;
    [| by destruct Hreq as (? & ? & _)].
  destruct Hreq as (Ho' & Hcalls & Hengines). simpl in Ho', Hengines.
  injection Ho' as <-.
  destruct out as [e|].
  - split; [| split; [| split; [split; [| split; [| split; [| split; [| split]]]] |]]];
      simpl; try done.
    + rewrite Hs. split; [done |]. rewrite Hh. simpl.
      eexists _, fo. split; [done |]. split; [done |]. rewrite Ho. by simpl.
    + unfold_status. simpl. intros p' Hb.
      by rewrite (built_ne _ _ Hb).
    + intros q [s c st] Hq. by exists st.
    + intros s e' He'. exists e'. split; [done | apply grows_refl].
  - split; [| split; [| split; [split; [| split; [| split; [| split; [| split]]]] |]]];
      simpl; try done.
    + rewrite Hs. split; [done |]. rewrite Hh, Hengines. simpl.
      eexists _, fo. split; [done |]. split; [done |]. rewrite Ho. simpl.
      repeat split; try done. eexists. split; [done | apply grows_refl].
    + intros q l Hq. destruct (Hloads q l Hq) as (e & He & Hd).
      exists e. split; [by apply lookup_app_l_Some | done].
    + unfold_status. simpl. intros p' Hb.
      by rewrite (built_ne _ _ Hb).
    + intros q [s c st] Hq. by exists st.
    + intros s e' He'. exists e'.
      split; [by apply lookup_app_l_Some | apply grows_refl].
Qed.

Lemma slotInv_engines σ es :
  slotInv σ ->
  (forall i e, engines σ !! i = Some e -> exists e', es !! i = Some e' /\ grows e e') ->
  length es = length (engines σ) ->
  slotInv (setEngines es σ).
Proof.
  unfold_invariants. simpl. intros Hslot Hes Hlen.
  destruct (_shiki σ) as [p|].
  - destruct Hslot as (-> & h & fo & Hh & Hfo & Hreq).
    split; [done |]. exists h, fo. split; [done |]. split; [done |].
    destruct (getHighlighterRequest (Some fo)) as [o|e].
    + destruct Hreq as (Ho & Hcalls & Hbuilt). split; [done |]. split; [done |].
      destruct (built h) as [|s|e].
      * rewrite Hbuilt in Hlen. by destruct es.
      * destruct Hbuilt as (-> & e & He & Hg). split; [done |].
        rewrite He in Hes, Hlen.
        destruct (Hes 0 e eq_refl) as (e' & He' & Hg').
        destruct es as [|e0 [|]]; try done. simpl in He'. injection He' as ->.
        exists e'. split; [done | by eapply grows_trans].
      * rewrite Hbuilt in Hlen. by destruct es.
    + destruct Hreq as (? & ? & ? & Hengines). repeat split; try done.
      rewrite Hengines in Hlen. by destruct es.
  - destruct Hslot as (? & Hengines & ? & ?). repeat split; try done.
    rewrite Hengines in Hlen. by destruct es.
Qed.

Lemma settleLoad_ok q out σ :
  slotInv σ -> loadsInv σ ->
  slotInv (settleLoad q out σ) /\
  loadsInv (settleLoad q out σ) /\
  extends σ (settleLoad q out σ) /\
  calls (settleLoad q out σ) = calls σ.
Proof.
  intros Hslot Hloads. unfold_settle.
  destruct (loads σ !! q) as [[s c [|u|e]]|] eqn:Hq;
    try (by repeat split; try done; apply extends_refl).
  assert (Hkeep : forall st q' l,
    loads σ !! q' = Some l ->
    exists st',
      <[q := {| target := s; loadCall := c; loaded := st |}]> (loads σ) !! q'
      = Some {| target := target l; loadCall := loadCall l; loaded := st' |}).
  { intros st q' [s' c' st'] Hq'.
    destruct (decide (q = q')) as [Heq|Hne]; [subst q' |].
    - exists st. rewrite list_lookup_insert_eq by (by eapply lookup_lt_Some).
      rewrite Hq in Hq'. by injection Hq' as <- <- _.
    - exists st'. by rewrite list_lookup_insert_ne. }
  destruct out as [e|].
  - split; [| split; [| split; [split; [| split; [| split; [| split; [| split]]]] |]]];
      simpl; try done.
    + intros q' l. simpl. intros Hq'.
      destruct (decide (q = q')) as [Heq|Hne]; [subst q' |].
      * rewrite list_lookup_insert_eq in Hq' by (by eapply lookup_lt_Some).
        injection Hq' as <-. simpl.
        destruct (Hloads _ _ Hq) as (e0 & He0 & _). by exists e0.
      * rewrite list_lookup_insert_ne in Hq' by done. exact (Hloads _ _ Hq').
    + intros q' l Hq'. by apply Hkeep.
    + intros s' e' He'. exists e'. split; [done | apply grows_refl].
  - split; [| split; [| split]]; try done.
    + apply (slotInv_engines (setLoads _ σ)).
      * exact Hslot.
      * intros i e He. by apply alter_grows.
      * simpl. by rewrite length_alter.
    + intros q' l. simpl. intros Hq'.
      destruct (decide (q = q')) as [Heq|Hne]; [subst q' |].
      * rewrite list_lookup_insert_eq in Hq' by (by eapply lookup_lt_Some).
        injection Hq' as <-. simpl.
        destruct (Hloads _ _ Hq) as (e0 & He0 & _). simpl in He0.
        exists (perform c e0). rewrite list_lookup_alter_eq, He0.
        split; [done |]. intros _. apply performed_perform.
      * rewrite list_lookup_insert_ne in Hq' by done.
        destruct (Hloads _ _ Hq') as (e0 & He0 & Hd).
        destruct (alter_grows _ s c _ _ He0) as (e1 & He1 & Hg).
        exists e1. split; [done |]. intros Hf.
        eapply performed_grows; [exact Hg | by apply Hd].
    + split; [| split; [| split; [| split; [| split]]]]; simpl; try done.
      * intros q' l Hq'. by apply Hkeep.
      * intros i e He. by apply alter_grows.
Qed.

(** *** Every reachable state satisfies the invariant *)

Lemma invariant_init : invariant (init : State).
Proof.
  split; [| split; [| split]].
  - by repeat split.
  - intros q l Hq. done.
  - constructor.
  - done.
Qed.

Lemma ensure_later options σ p :
  invariant σ -> _shiki σ = Some p ->
  exists new t,
    getShikiWithThemeLang options σ =
      setCalls (calls σ ++ [{| request := options; task := t |}])
        (setLoads (loads σ ++ new) σ) /\
    resume options (AwaitShiki p) σ = (setLoads (loads σ ++ new) σ, t) /\
    Forall (fresh σ) new /\
    taskInv (setLoads (loads σ ++ new) σ) options t.
Proof.
  intros (Hslot & Hloads & Hcalls & Hnone) Hp.
  destruct (resume_ok options (AwaitShiki p) σ Hslot Hloads Hp)
    as (new & t & E & F & T).
  exists new, t. split; [| done].
  unfold_ensure. rewrite Hp, E. done.
Qed.

Lemma ensure_first options σ :
  invariant σ -> _shiki σ = None ->
  exists h t,
    getShikiWithThemeLang options σ =
      {| _shiki := Some 0; highlighters := [h]; loads := loads σ;
         engines := []; factoryCalls := [factoryOptions options];
         engineCalls :=
           match getHighlighterRequest (Some (factoryOptions options)) with
           | Ok o => [o]
           | Throw _ => []
           end;
         calls := [{| request := options; task := t |}] |} /\
    match getHighlighterRequest (Some (factoryOptions options)) with
    | Ok o => h = {| engineOptions := Some o; built := Pending |} /\ t = Returned 0
    | Throw e =>
        h = {| engineOptions := None; built := Rejected e |} /\ t = Done (Throw e)
    end.
Proof.
  intros (Hslot & Hloads & Hcalls & Hnone) Hs.
  specialize (Hnone Hs). unfold_invariants. rewrite Hs in Hslot.
  destruct Hslot as (Hh & He & Hf & Hc).
  destruct σ as [sh hs ls es fc ec cs]. simpl in *. subst.
  unfold_ensure. simpl.
  destruct (getHighlighterRequest (Some (factoryOptions options))) as [o|e];
    simpl; eexists _, _; split; reflexivity || done.
Qed.

Lemma ensure_ok options σ :
  invariant σ -> invariant (getShikiWithThemeLang options σ).
Proof.
  intros Hinv. destruct (_shiki σ) as [p|] eqn:Hs.
  - destruct (ensure_later options σ p Hinv Hs) as (new & t & -> & _ & F & T).
    destruct Hinv as (Hslot & Hloads & Hcalls & Hnone).
    split; [exact Hslot |]. split; [| split].
    + by apply (loadsInv_setLoads σ).
    + apply Forall_app. split.
      * exact (callsInv_extends _ _ _ (extends_setLoads σ new) Hcalls).
      * by apply Forall_singleton.
    + simpl. congruence.
  - destruct (ensure_first options σ Hinv Hs) as (h & t & -> & Hreq).
    destruct Hinv as (Hslot & Hloads & Hcalls & Hnone).
    unfold_invariants. rewrite Hs in Hslot. destruct Hslot as (_ & He & _).
    split; [| split; [| split]]; simpl.
    + split; [done |]. exists h, (factoryOptions options).
      split; [done |]. split; [done |].
      destruct (getHighlighterRequest (Some (factoryOptions options)));
        destruct Hreq as [-> ->]; done.
    + intros q l Hq. destruct (Hloads q l Hq) as (e & Hse & _).
      by rewrite He in Hse.
    + apply Forall_singleton. simpl.
      destruct (getHighlighterRequest (Some (factoryOptions options)));
        destruct Hreq as [-> ->]; done.
    + done.
Qed.

Lemma wake_invariant σ cs :
  slotInv σ -> loadsInv σ -> callsInv σ cs -> cs = calls σ ->
  (_shiki σ = None -> cs = []) ->
  invariant (wake σ).
Proof.
  intros Hslot Hloads Hcalls -> Hnone.
  destruct (wake_ok σ Hslot Hloads Hcalls) as (new & cs' & -> & F & C & R).
  split; [exact Hslot |]. split; [| split].
  - by apply (loadsInv_setLoads σ).
  - exact C.
  - simpl. intros Hs. rewrite (Hnone Hs) in R. by inversion R.
Qed.

Lemma step_ok σ ev : invariant σ -> invariant (step σ ev).
Proof.
  intros Hinv. destruct ev as [options|p out|q out]; simpl.
  - by apply ensure_ok.
  - destruct Hinv as (Hslot & Hloads & Hcalls & Hnone).
    destruct (settleConstruction_ok p out σ Hslot Hloads)
      as (Hslot' & Hloads' & Hext & Hsame).
    apply (wake_invariant _ (calls σ)); try done.
    + by eapply callsInv_extends.
    + by destruct Hext as (-> & _).
  - destruct Hinv as (Hslot & Hloads & Hcalls & Hnone).
    destruct (settleLoad_ok q out σ Hslot Hloads)
      as (Hslot' & Hloads' & Hext & Hsame).
    apply (wake_invariant _ (calls σ)); try done.
    + by eapply callsInv_extends.
    + by destruct Hext as (-> & _).
Qed.

Lemma steps_ok evs σ : invariant σ -> invariant (fold_left step evs σ).
Proof.
  revert σ. induction evs as [|ev evs IH]; intros σ Hinv; simpl; [done |].
  by apply IH, step_ok.
Qed.

Lemma run_ok evs : invariant (run evs).
Proof. apply steps_ok, invariant_init. Qed.

(** *** What later events leave alone *)

Lemma resumed_refl (cs : list (Call (EngineError := EngineError))) :
  Forall2 resumed cs cs.
Proof. induction cs; constructor; [by split | done]. Qed.

Lemma resumed_trans (cs1 cs2 cs3 : list (Call (EngineError := EngineError))) :
  Forall2 resumed cs1 cs2 -> Forall2 resumed cs2 cs3 -> Forall2 resumed cs1 cs3.
Proof.
  intros H12. revert cs3. induction H12 as [|c1 c2 cs1 cs2 [Hr Hd] _ IH];
    intros cs3 H23; inversion H23 as [|? c3 ? cs3' [Hr' Hd'] H23']; subst;
    constructor; [| by apply IH].
  split; [congruence | auto].
Qed.

(** Once the slot is set, an event never touches the slot or the logs;
    it resumes the calls there are and may add one; a call added while the
    promise in the slot is rejected fails with that promise's error. *)
Lemma step_frame σ ev p :
  invariant σ -> _shiki σ = Some p ->
  extends σ (step σ ev) /\
  exists cs' added,
    calls (step σ ev) = cs' ++ added /\
    Forall2 resumed (calls σ) cs' /\
    Forall (fun c => forall e, builtOf σ p = Rejected e -> task c = Done (Throw e))
      added.
Proof.
  intros Hinv Hp. destruct ev as [options|p' out|q out]; simpl.
  - destruct (ensure_later options σ p Hinv Hp) as (new & t & -> & E & F & T).
    split; [exact (extends_setLoads σ new) |].
    eexists (calls σ), [_]. split; [reflexivity |].
    split; [apply resumed_refl |].
    apply Forall_singleton. simpl. intros e Hb.
    unfold_resume. rewrite Hb in E. by injection E as _ <-.
  - destruct Hinv as (Hslot & Hloads & Hcalls & Hnone).
    destruct (settleConstruction_ok p' out σ Hslot Hloads)
      as (Hslot' & Hloads' & Hext & Hsame).
    destruct (wake_ok _ Hslot' Hloads') as (new & cs' & -> & F & C & R).
    { rewrite Hsame. by eapply callsInv_extends. }
    split.
    + eapply extends_trans; [exact Hext |]. exact (extends_setLoads _ new).
    + exists cs', []. rewrite app_nil_r. rewrite Hsame in R. by repeat split.
  - destruct Hinv as (Hslot & Hloads & Hcalls & Hnone).
    destruct (settleLoad_ok q out σ Hslot Hloads)
      as (Hslot' & Hloads' & Hext & Hsame).
    destruct (wake_ok _ Hslot' Hloads') as (new & cs' & -> & F & C & R).
    { rewrite Hsame. by eapply callsInv_extends. }
    split.
    + eapply extends_trans; [exact Hext |]. exact (extends_setLoads _ new).
    + exists cs', []. rewrite app_nil_r. rewrite Hsame in R. by repeat split.
Qed.

Lemma steps_frame evs σ p :
  invariant σ -> _shiki σ = Some p ->
  extends σ (fold_left step evs σ) /\
  exists cs' added,
    calls (fold_left step evs σ) = cs' ++ added /\
    Forall2 resumed (calls σ) cs' /\
    Forall (fun c => forall e, builtOf σ p = Rejected e -> task c = Done (Throw e))
      added.
Proof.
  revert σ. induction evs as [|ev evs IH]; intros σ Hinv Hp; simpl.
  - split; [apply extends_refl |].
    exists (calls σ), []. rewrite app_nil_r.
    split; [done |]. split; [apply resumed_refl | constructor].
  - destruct (step_frame σ ev p Hinv Hp) as (Hext1 & cs1 & add1 & E1 & R1 & A1).
    assert (_shiki (step σ ev) = Some p) as Hp1.
    { destruct Hext1 as (-> & _). done. }
    destruct (IH _ (step_ok σ ev Hinv) Hp1) as (Hext2 & cs2 & add2 & E2 & R2 & A2).
    split; [by eapply extends_trans |].
    rewrite E1 in R2.
    apply Forall2_app_inv_l in R2 as (cs2a & cs2b & R2a & R2b & ->).
    exists cs2a, (cs2b ++ add2). rewrite E2, <- app_assoc.
    split; [done |]. split; [by eapply resumed_trans |].
    apply Forall_app. split.
    + clear -R2b A1. induction R2b as [|c c' ? ? [_ Hd] _ IH']; [constructor |].
      apply Forall_cons in A1 as [Ha A1].
      constructor; [| by apply IH']. intros e He. apply Hd. by apply Ha.
    + eapply Forall_impl; [exact A2 |]. simpl. intros c Hc e He. apply Hc.
      destruct Hext1 as (_ & _ & _ & Hb & _). rewrite Hb; [done |].
      by rewrite He.
Qed.

Lemma outcome_Some σ k r :
  outcome σ k = Some r <->
  exists c, calls σ !! k = Some c /\ task c = Done r.
Proof.
  unfold_outcome. destruct (calls σ !! k) as [[req t]|]; simpl.
  - destruct t; split; try done.
    + by intros (c & [= <-] & ?).
    + by intros (c & [= <-] & ?).
    + by intros (c & [= <-] & ?).
    + intros [= ->]. by eexists.
    + intros (c & [= <-] & Ht). simpl in Ht. congruence.
  - split; [done |]. by intros (c & ? & _).
Qed.

(** A caller that was given an instance was given the one in the slot,
    with everything it asked for loaded. *)
Lemma outcome_Ok evs k s :
  outcome (run evs) k = Some (Ok s) ->
  slotHolds (run evs) s /\
  exists c e,
    calls (run evs) !! k = Some c /\ engines (run evs) !! s = Some e /\
    supports e (request c).
Proof.
  intros (c & Hk & Ht)%outcome_Some.
  destruct (run_ok evs) as (_ & _ & Hcalls & _).
  pose proof (Forall_lookup_1 _ _ _ _ Hcalls Hk) as Hc.
  cbv beta in Hc. rewrite Ht in Hc. destruct Hc as (Hh & e & He & Hsup).
  split; [done |]. by exists c, e.
Qed.

Lemma two_calls first second :
  _shiki (run [Ensure first; Ensure second]) = Some 0 /\
  factoryCalls (run [Ensure first; Ensure second]) = [factoryOptions first] /\
  loads (run [Ensure first; Ensure second]) = [] /\
  engines (run [Ensure first; Ensure second]) = [] /\
  match getHighlighterRequest (Some (factoryOptions first)) with
  | Ok o =>
      highlighters (run [Ensure first; Ensure second]) =
        [{| engineOptions := Some o; built := Pending |}] /\
      engineCalls (run [Ensure first; Ensure second]) = [o] /\
      calls (run [Ensure first; Ensure second]) =
        [{| request := first; task := Returned 0 |};
         {| request := second; task := AwaitShiki 0 |}]
  | Throw e =>
      highlighters (run [Ensure first; Ensure second]) =
        [{| engineOptions := None; built := Rejected e |}] /\
      engineCalls (run [Ensure first; Ensure second]) = [] /\
      calls (run [Ensure first; Ensure second]) =
        [{| request := first; task := Done (Throw e) |};
         {| request := second; task := Done (Throw e) |}]
  end.
Proof.
  unfold_run. simpl. unfold_ensure. simpl.
  destruct (getHighlighterRequest (Some (factoryOptions first))) as [o|e];
    simpl; done.
Qed.

(** C1. A factory calls [getHighlighter] at most once, whatever happens to
    it: at most one engine is asked for and at most one instance exists,
    and all callers that are given an instance are given the same one.
    When two calls are made before anything settles, the first call makes
    the one [getHighlighter] invocation, with its own themes and
    languages, the second is suspended on the promise the first one put in
    the slot, and no later event adds an invocation. *)
Theorem singleton_one_construction (evs : list Event) :
  length (factoryCalls (run evs)) <= 1 /\
  length (engineCalls (run evs)) <= 1 /\
  length (engines (run evs)) <= 1 /\
  (calls (run evs) <> [] -> length (factoryCalls (run evs)) = 1) /\
  (forall j k s s',
     outcome (run evs) j = Some (Ok s) -> outcome (run evs) k = Some (Ok s') ->
     s = s') /\
  (forall first second rest,
     evs = Ensure first :: Ensure second :: rest ->
     factoryCalls (run evs) = [factoryOptions first] /\
     _shiki (run evs) = _shiki (run [Ensure first; Ensure second]) /\
     (forall o, getHighlighterRequest (Some (factoryOptions first)) = Ok o ->
        builtOf (run [Ensure first; Ensure second]) 0 = Pending /\
        map task (calls (run [Ensure first; Ensure second])) =
          [Returned 0; AwaitShiki 0])).
Proof.
  pose proof (run_ok evs) as (Hslot & Hloads & Hcalls & Hnone).
  split; [| split; [| split; [| split; [| split]]]].
  - unfold_invariants. destruct (_shiki (run evs)).
    + destruct Hslot as (_ & h & fo & _ & -> & _). done.
    + destruct Hslot as (_ & _ & -> & _). simpl. lia.
  - unfold_invariants. destruct (_shiki (run evs)).
    + destruct Hslot as (_ & h & fo & _ & _ & Hreq).
      destruct (getHighlighterRequest (Some fo)).
      * destruct Hreq as (_ & -> & _). done.
      * destruct Hreq as (_ & _ & -> & _). simpl. lia.
    + destruct Hslot as (_ & _ & _ & ->). simpl. lia.
  - unfold_invariants. destruct (_shiki (run evs)).
    + destruct Hslot as (_ & h & fo & _ & _ & Hreq).
      destruct (getHighlighterRequest (Some fo)).
      * destruct Hreq as (_ & _ & Hb). destruct (built h).
        -- rewrite Hb. simpl. lia.
        -- destruct Hb as (_ & e & -> & _). done.
        -- rewrite Hb. simpl. lia.
      * destruct Hreq as (_ & _ & _ & ->). simpl. lia.
    + destruct Hslot as (_ & -> & _). simpl. lia.
  - intros Hne. unfold_invariants. destruct (_shiki (run evs)).
    + destruct Hslot as (_ & h & fo & _ & -> & _). done.
    + by destruct Hne, Hnone.
  - intros j k s s' [(p & Hp & Hb) _]%outcome_Ok [(p' & Hp' & Hb') _]%outcome_Ok.
    rewrite Hp in Hp'. injection Hp' as <-. congruence.
  - intros first second rest ->.
    destruct (two_calls first second) as (Hs2 & Hf2 & Hl2 & He2 & Hreq).
    change (run (Ensure first :: Ensure second :: rest))
      with (fold_left step rest (run [Ensure first; Ensure second])).
    destruct (steps_frame rest _ 0 (run_ok _) Hs2) as ((Hs' & Hf' & _) & _).
    split; [congruence |]. split; [done |].
    intros o Ho. rewrite Ho in Hreq. destruct Hreq as (Hh & _ & Hc).
    unfold_status. by rewrite Hh, Hc.
Qed.

(** C6. When the promise in the slot is rejected, because the first
    [getHighlighter] threw while resolving or because the engine failed,
    the slot keeps that promise through every later event: it is never
    cleared, [getHighlighter] is never called again, no instance comes to
    exist, and every call made afterwards fails with the same error. *)
Theorem failed_construction_is_kept (evs later : list Event) p e :
  _shiki (run evs) = Some p ->
  builtOf (run evs) p = Rejected e ->
  _shiki (run (evs ++ later)) = Some p /\
  builtOf (run (evs ++ later)) p = Rejected e /\
  factoryCalls (run (evs ++ later)) = factoryCalls (run evs) /\
  length (factoryCalls (run (evs ++ later))) = 1 /\
  engineCalls (run (evs ++ later)) = engineCalls (run evs) /\
  engines (run (evs ++ later)) = [] /\
  forall k,
    length (calls (run evs)) <= k < length (calls (run (evs ++ later))) ->
    outcome (run (evs ++ later)) k = Some (Throw e).
Proof.
  intros Hp Hb.
  assert (run (evs ++ later) = fold_left step later (run evs)) as Hrun.
  { unfold_run. by rewrite fold_left_app. }
  destruct (steps_frame later _ p (run_ok evs) Hp)
    as ((Hs & Hf & Hc & Hsettled & _) & cs' & added & Hcalls & R & A).
  rewrite <- Hrun in *.
  assert (builtOf (run (evs ++ later)) p = Rejected e) as Hb'.
  { rewrite Hsettled; [done |]. by rewrite Hb. }
  pose proof (run_ok (evs ++ later)) as (Hslot & _).
  unfold_invariants. rewrite Hs, Hp in Hslot.
  destruct Hslot as (-> & h & fo & Hh & Hfo & Hreq).
  split; [congruence |]. split; [done |]. split; [done |].
  split; [by rewrite Hfo |]. split; [done |]. split.
  - unfold_status. rewrite Hh in Hb'. simpl in Hb'.
    destruct (getHighlighterRequest (Some fo)).
    + destruct Hreq as (_ & _ & Hbuilt). by rewrite Hb' in Hbuilt.
    + by destruct Hreq as (_ & _ & _ & ?).
  - intros k [Hge Hlt]. apply outcome_Some.
    rewrite Hcalls in Hlt |- *. apply Forall2_length in R.
    rewrite length_app in Hlt.
    destruct (lookup_lt_is_Some_2 added (k - length cs')) as [c Hc']; [lia |].
    exists c. split.
    + rewrite lookup_app_r by lia. done.
    + rewrite Forall_lookup in A. by eapply A.
Qed.

(** *** A call that finds the slot set *)

Lemma ensure_on_slot options σ p :
  _shiki σ = Some p ->
  match builtOf σ p with
  | Pending =>
      getShikiWithThemeLang options σ =
        setCalls (calls σ ++ [{| request := options; task := AwaitShiki p |}]) σ
  | Rejected e =>
      getShikiWithThemeLang options σ =
        setCalls (calls σ ++ [{| request := options; task := Done (Throw e) |}]) σ
  | Fulfilled s =>
      forall ts ls,
        resolvedThemes options = Ok ts -> resolvedLangs options = Ok ls ->
        getShikiWithThemeLang options σ =
          setCalls
            (calls σ ++
               [{| request := options;
                   task := AwaitLoads s (length (loads σ)) (S (length (loads σ))) |}])
            (setLoads
               (loads σ ++
                  [{| target := s; loadCall := CoreLoadTheme ts; loaded := Pending |};
                   {| target := s; loadCall := CoreLoadLanguage ls;
                      loaded := Pending |}]) σ)
  end.
Proof.
  intros Hp. unfold_ensure. rewrite Hp. unfold_resume.
  destruct (builtOf σ p) as [|s|e]; [done | | done].
  intros ts ls Hts Hls. unfold_highlighter. unfold_invariants.
  rewrite Hts. simpl. rewrite Hls. simpl.
  unfold_setters. simpl. rewrite length_app, <- app_assoc. simpl.
  by rewrite Nat.add_1_r.
Qed.

Lemma resume_returns req s pt pl σ σ' s' :
  resume req (AwaitLoads s pt pl) σ = (σ', Done (Ok s')) ->
  s' = s /\ σ' = σ /\
  loadedOf σ pt = Fulfilled tt /\ loadedOf σ pl = Fulfilled tt.
Proof.
  unfold_resume.
  destruct (all (loadedOf σ pt) (loadedOf σ pl)) as [|u|e] eqn:Hall;
    intros [= <- <-].
  apply all_Fulfilled in Hall as [? ?]. done.
Qed.

Lemma resolvedThemes_One id def :
  bundledThemes !! id = Some def ->
  forall x, resolvedThemes {| theme := One id; lang := x |} = Ok [def].
Proof. intros Hid x. unfold_invariants. simpl. by rewrite Hid. Qed.

(** C5. A call that finds the slot set calls neither [getHighlighter] nor
    the engine's constructor. It waits for the promise in the slot; once
    that has delivered the instance, it requests the theme load and the
    language load on that instance in one step, before either has
    completed, and it returns the instance only when both have completed:
    every caller that has been given the instance finds all the themes and
    languages of its own request loaded in it. So when a call for theme [A]
    is followed by a call for theme [B] and the second returns, one
    [getHighlighter] call was made and the instance holds both themes. *)
Theorem ensure_extends_the_instance (evs : list Event) :
  (forall options p,
     _shiki (run evs) = Some p ->
     extends (run evs) (step (run evs) (Ensure options)) /\
     highlighters (step (run evs) (Ensure options)) = highlighters (run evs) /\
     engines (step (run evs) (Ensure options)) = engines (run evs) /\
     match builtOf (run evs) p with
     | Pending =>
         loads (step (run evs) (Ensure options)) = loads (run evs) /\
         calls (step (run evs) (Ensure options)) =
           calls (run evs) ++ [{| request := options; task := AwaitShiki p |}]
     | Rejected e =>
         loads (step (run evs) (Ensure options)) = loads (run evs) /\
         calls (step (run evs) (Ensure options)) =
           calls (run evs) ++ [{| request := options; task := Done (Throw e) |}]
     | Fulfilled s =>
         forall ts ls,
           resolvedThemes options = Ok ts -> resolvedLangs options = Ok ls ->
           loads (step (run evs) (Ensure options)) =
             loads (run evs) ++
               [{| target := s; loadCall := CoreLoadTheme ts; loaded := Pending |};
                {| target := s; loadCall := CoreLoadLanguage ls;
                   loaded := Pending |}] /\
           calls (step (run evs) (Ensure options)) =
             calls (run evs) ++
               [{| request := options;
                   task := AwaitLoads s (length (loads (run evs)))
                             (S (length (loads (run evs)))) |}]
     end) /\
  (forall req s pt pl σ σ' s',
     resume req (AwaitLoads s pt pl) σ = (σ', Done (Ok s')) ->
     s' = s /\ σ' = σ /\
     loadedOf σ pt = Fulfilled tt /\ loadedOf σ pl = Fulfilled tt) /\
  (forall k s,
     outcome (run evs) k = Some (Ok s) ->
     slotHolds (run evs) s /\
     exists c e,
       calls (run evs) !! k = Some c /\ engines (run evs) !! s = Some e /\
       supports e (request c)) /\
  (forall A B x defA defB rest s,
     evs = Ensure {| theme := One A; lang := x |}
           :: Ensure {| theme := One B; lang := x |} :: rest ->
     bundledThemes !! A = Some defA ->
     bundledThemes !! B = Some defB ->
     outcome (run evs) 1 = Some (Ok s) ->
     length (factoryCalls (run evs)) = 1 /\
     exists e,
       engines (run evs) !! s = Some e /\ length (engines (run evs)) = 1 /\
       defA ∈ loadedThemes e /\ defB ∈ loadedThemes e).
Proof.
  split; [| split; [| split]].
  - intros options p Hp.
    destruct (step_frame _ (Ensure options) p (run_ok evs) Hp) as (Hext & _).
    split; [done |]. simpl.
    pose proof (ensure_on_slot options (run evs) p Hp) as Hshape.
    destruct (builtOf (run evs) p) as [|s|e].
    + by rewrite Hshape.
    + split; [| split].
      * destruct (ensure_later options _ p (run_ok evs) Hp) as (? & ? & -> & _).
        done.
      * destruct (ensure_later options _ p (run_ok evs) Hp) as (? & ? & -> & _).
        done.
      * intros ts ls Hts Hls. by rewrite (Hshape ts ls Hts Hls).
    + by rewrite Hshape.
  - intros req s pt pl σ σ' s'. apply resume_returns.
  - intros k s. apply outcome_Ok.
  - intros A B x defA defB rest s -> HA HB Hout.
    set (a := {| theme := One A; lang := x |}) in *.
    set (b := {| theme := One B; lang := x |}) in *.
    destruct (two_calls a b) as (Hs2 & Hf2 & _ & _ & Hreq).
    assert (exists t0 t1, calls (run [Ensure a; Ensure b]) =
              [{| request := a; task := t0 |}; {| request := b; task := t1 |}])
      as (t0 & t1 & Hc2).
    { destruct (getHighlighterRequest (Some (factoryOptions a)));
        destruct Hreq as (_ & _ & ->); by eexists _, _. }
    change (run (Ensure a :: Ensure b :: rest))
      with (fold_left step rest (run [Ensure a; Ensure b])) in *.
    destruct (steps_frame rest _ 0 (run_ok _) Hs2)
      as ((_ & Hf & _) & cs' & added & Hcalls & R & _).
    rewrite Hc2 in R.
    inversion R as [|? c0 ? cs1 [_ _] R1]; subst.
    inversion R1 as [|? c1 ? cs2 [Hb1 _] R2]; subst. inversion R2; subst.
    change (fold_left step rest (run [Ensure a; Ensure b]))
      with (run (Ensure a :: Ensure b :: rest)) in *.
    destruct (outcome_Ok _ _ _ Hout) as ((p & Hp & Hbuilt) & c & e & Hk & He & Hsup).
    rewrite Hcalls in Hk. simpl in Hk. injection Hk as <-.
    rewrite Hb1 in Hsup. simpl in Hsup.
    destruct Hsup as (ts & ls & Hts & _ & Hsub & _).
    unfold b in Hts. rewrite (resolvedThemes_One B defB HB) in Hts.
    injection Hts as <-.
    pose proof (run_ok (Ensure a :: Ensure b :: rest)) as (Hslot & _).
    destruct (slot_fulfilled _ p s Hslot Hp Hbuilt)
      as (fo & o & e' & -> & -> & Hfo & Ho & He' & [Hgt _]).
    rewrite Hf, Hf2 in Hfo. injection Hfo as <-.
    apply request_factoryOptions in Ho as [HtsA _].
    unfold a in HtsA. rewrite (resolvedThemes_One A defA HA) in HtsA.
    injection HtsA as HtsA.
    rewrite He' in He. injection He as <-.
    split; [by rewrite Hf, Hf2 |].
    exists e'. rewrite He'. split; [done |]. split; [done |].
    simpl in Hgt. rewrite <- HtsA in Hgt. split; set_solver.
Qed.

(** *** The themes of [codeToHtmlThemes] *)

Lemma asIds_Some (vs : list (option string)) H : map Some (asIds vs H) = vs.
Proof.
  induction vs as [|v vs IH]; simpl; [done |]. f_equal; [| apply IH].
  destruct v as [id|]; [done |]. exfalso. simpl in H. discriminate H.
Qed.

Lemma map_Some_inj (l l' : list string) : map Some l = map Some l' -> l = l'.
Proof.
  revert l'. induction l as [|x l IH]; intros [|x' l']; simpl; try done.
  intros [= -> H]. f_equal. by apply IH.
Qed.

Lemma asIds_elem (vs : list (option string)) H (id : string) :
  id ∈ asIds vs H <-> Some id ∈ vs.
Proof.
  pose proof (asIds_Some vs H) as E. rewrite <- E at 2. clear E.
  rewrite !list_elem_of_In, in_map_iff. split.
  - intros Hin. by exists id.
  - by intros (id' & [= ->] & Hin).
Qed.

Lemma Boolean_Some (id : string) : Boolean (Some id) = true <-> id <> "".
Proof. destruct id; simpl; split; done. Qed.

Lemma collected_elem (vs : list (option string)) (id : string) :
  id ∈ asIds (List.filter Boolean vs) (filtered vs) <-> Some id ∈ vs /\ id <> "".
Proof.
  rewrite asIds_elem, list_elem_of_In, filter_In, <- list_elem_of_In.
  by rewrite Boolean_Some.
Qed.

Lemma filter_skip (pre post : list (string * option string)) role v :
  Boolean v = false ->
  List.filter Boolean (Object_values (pre ++ (role, v) :: post)) =
  List.filter Boolean (Object_values (pre ++ post)).
Proof.
  intros Hv. unfold Object_values.
  rewrite !map_app, !List.filter_app. simpl. by rewrite Hv.
Qed.

Lemma collected_skip (pre post : list (string * option string)) role v :
  Boolean v = false ->
  asIds (List.filter Boolean (Object_values (pre ++ (role, v) :: post)))
    (filtered (Object_values (pre ++ (role, v) :: post))) =
  asIds (List.filter Boolean (Object_values (pre ++ post)))
    (filtered (Object_values (pre ++ post))).
Proof.
  intros Hv. apply map_Some_inj. rewrite !asIds_Some. by apply filter_skip.
Qed.

Lemma ensureOptions_themes (code : string)
    (options : ThemesOptions (RenderOptions := RenderOptions)) :
  ensureOptions (codeToHtmlThemes code options) =
    {| theme :=
         Many (asIds (List.filter Boolean (Object_values (optsThemes options)))
                 (filtered (Object_values (optsThemes options))));
       lang := One (optsLang options) |}.
Proof. reflexivity. Qed.



(** C10. In [codeToHtmlThemes] an empty string among the values of
    [options.themes] is dropped like [undefined]: the call behaves as if
    the role were not there, the empty string is never among the themes
    asked for, and no resolution of them fails with [NotBundled] for the
    empty string. *)
Theorem codeToHtmlThemes_skips_empty_string
    (code l : string) (obj : RenderOptions)
    (pre post : list (string * option string)) (role : string) :
  ensureOptions
    (codeToHtmlThemes code
       {| optsLang := l; optsThemes := pre ++ (role, Some "") :: post;
          optsObject := obj |}) =
  ensureOptions
    (codeToHtmlThemes code
       {| optsLang := l; optsThemes := pre ++ post; optsObject := obj |}) /\
  (forall σ,
     getShikiWithThemeLang
       (ensureOptions
          (codeToHtmlThemes code
             {| optsLang := l; optsThemes := pre ++ (role, Some "") :: post;
                optsObject := obj |})) σ =
     getShikiWithThemeLang
       (ensureOptions
          (codeToHtmlThemes code
             {| optsLang := l; optsThemes := pre ++ post; optsObject := obj |})) σ) /\
  (forall options : ThemesOptions (RenderOptions := RenderOptions),
     "" ∉ toArray (theme (ensureOptions (codeToHtmlThemes code options)))) /\
  (forall (options : ThemesOptions (RenderOptions := RenderOptions)) e,
     resolvedThemes (ensureOptions (codeToHtmlThemes code options)) = Throw e ->
     e <> NotBundled Theme "").
Proof.
  assert (ensureOptions
    (codeToHtmlThemes code
       {| optsLang := l; optsThemes := pre ++ (role, Some "") :: post;
          optsObject := obj |}) =
  ensureOptions
    (codeToHtmlThemes code
       {| optsLang := l; optsThemes := pre ++ post; optsObject := obj |})) as E.
  { rewrite !ensureOptions_themes. cbn [optsThemes optsLang].
    by rewrite collected_skip. }
  split; [exact E |]. split; [| split].
  - intros σ. by rewrite E.
  - intros options. rewrite ensureOptions_themes. cbn [theme toArray].
    rewrite collected_elem. tauto.
  - intros options e. unfold_invariants.
    rewrite ensureOptions_themes. cbn [theme toArray].
    intros (ref & Hin & Href)%mapR_Throw_elem.
    apply resolveTheme_Throw in Href as (id & -> & _ & ->).
    apply list_elem_of_In, in_map_iff in Hin as (id' & [= ->] & Hin).
    apply list_elem_of_In, collected_elem in Hin as [_ Hne].
    intros [_ ?]%NotBundled_inj. done.
Qed.

(** *** More on the life of the singleton *)

Lemma loads_nil σ : loadsInv σ -> engines σ = [] -> loads σ = [].
Proof.
  intros Hl He. destruct (loads σ) as [|l ls] eqn:E; [done |].
  destruct (Hl 0 l) as (e & Hse & _); [by rewrite E |]. by rewrite He in Hse.
Qed.

Lemma run_snoc evs ev : run (evs ++ [ev]) = step (run evs) ev.
Proof. unfold_run. by rewrite fold_left_app. Qed.

Lemma run_app evs later : run (evs ++ later) = fold_left step later (run evs).
Proof. unfold_run. by rewrite fold_left_app. Qed.

Lemma wake_same σ :
  slotInv σ -> loadsInv σ -> callsInv σ (calls σ) ->
  highlighters (wake σ) = highlighters σ /\ engines (wake σ) = engines σ /\
  engineCalls (wake σ) = engineCalls σ.
Proof.
  intros Hslot Hloads Hcalls.
  by destruct (wake_ok σ Hslot Hloads Hcalls) as (new & cs' & -> & _).
Qed.

(** While the promise in the slot is pending, it is the only promise there
    is, the engine was asked for one instance and has delivered none. *)
Lemma pending_slot σ p :
  slotInv σ -> _shiki σ = Some p -> builtOf σ p = Pending ->
  exists o fo,
    p = 0 /\ highlighters σ = [{| engineOptions := Some o; built := Pending |}] /\
    engines σ = [] /\ engineCalls σ = [o] /\ factoryCalls σ = [fo] /\
    getHighlighterRequest (Some fo) = Ok o.
Proof.
  unfold_invariants. unfold_status. intros Hslot Hp Hb. rewrite Hp in Hslot.
  destruct Hslot as (-> & h & fo & Hh & Hfo & Hreq).
  rewrite Hh in Hb. simpl in Hb.
  destruct (getHighlighterRequest (Some fo)) as [o|e] eqn:Ho.
  - destruct Hreq as (Hopt & Hcalls & Hbuilt). rewrite Hb in Hbuilt.
    exists o, fo. destruct h as [ho hb]. simpl in *. subst. done.
  - destruct Hreq as (_ & Hrej & _). congruence.
Qed.

Lemma rejected_no_engine σ p e :
  slotInv σ -> _shiki σ = Some p -> builtOf σ p = Rejected e -> engines σ = [].
Proof.
  unfold_invariants. unfold_status. intros Hslot Hp Hb. rewrite Hp in Hslot.
  destruct Hslot as (-> & h & fo & Hh & Hfo & Hreq).
  rewrite Hh in Hb. simpl in Hb.
  destruct (getHighlighterRequest (Some fo)) as [o|e'].
  - destruct Hreq as (_ & _ & Hbuilt). by rewrite Hb in Hbuilt.
  - by destruct Hreq as (_ & _ & _ & ?).
Qed.

Lemma settleConstruction_settles σ p o out :
  highlighters σ !! p = Some {| engineOptions := Some o; built := Pending |} ->
  builtOf (settleConstruction p out σ) p =
    match out with
    | None => Fulfilled (length (engines σ))
    | Some e => Rejected (EngineFailure e)
    end.
Proof.
  intros Hp. unfold_settle. rewrite Hp. unfold_status.
  destruct out; simpl;
    by rewrite list_lookup_insert_eq by (by eapply lookup_lt_Some).
Qed.

Lemma resumeAll_pending cs σ p :
  builtOf σ p = Pending ->
  Forall (fun c => task c = Returned p \/ task c = AwaitShiki p) cs ->
  resumeAll cs σ = (σ, cs).
Proof.
  intros Hb. induction 1 as [|[req t] cs Ht _ IH]; [done |].
  simpl in *. destruct Ht as [-> | ->]; unfold_resume; rewrite Hb, IH; done.
Qed.

Lemma wake_pending σ p :
  builtOf σ p = Pending ->
  Forall (fun c => task c = Returned p \/ task c = AwaitShiki p) (calls σ) ->
  wake σ = σ.
Proof.
  intros Hb Hc. unfold_wake. rewrite (resumeAll_pending _ _ p Hb Hc).
  by destruct σ.
Qed.

Lemma resumeAll_rejected cs σ p e :
  builtOf σ p = Rejected e ->
  Forall (fun c => task c = Returned p \/ task c = AwaitShiki p) cs ->
  exists cs',
    resumeAll cs σ = (σ, cs') /\ length cs' = length cs /\
    Forall (fun c => task c = Done (Throw e)) cs'.
Proof.
  intros Hb. induction 1 as [|[req t] cs Ht _ (cs' & IH & Hlen & Hall)].
  - exists []. by repeat split.
  - exists ({| request := req; task := Done (Throw e) |} :: cs').
    simpl in *. split; [| split].
    + destruct Ht as [-> | ->]; unfold_resume; rewrite Hb, IH; done.
    + by rewrite Hlen.
    + by constructor.
Qed.

(** The calls there are while the promise in the slot is pending: all of
    them wait for it, and no load has been requested. *)
Lemma pending_calls evs p :
  _shiki (run evs) = Some p -> builtOf (run evs) p = Pending ->
  Forall (fun c => task c = Returned p \/ task c = AwaitShiki p) (calls (run evs)) /\
  loads (run evs) = [].
Proof.
  induction evs as [|ev evs IH] using rev_ind; [done |].
  rewrite run_snoc. intros Hp Hb.
  pose proof (run_ok evs) as Hinv.
  pose proof Hinv as (Hslot & Hloads & Hcalls & Hnone).
  destruct (_shiki (run evs)) as [p0|] eqn:Hs.
  - destruct (step_frame _ ev p0 Hinv Hs) as ((Hs' & _ & _ & Hsettled & _) & _).
    assert (p0 = p) as -> by congruence.
    assert (builtOf (run evs) p = Pending) as Hb0.
    { destruct (builtOf (run evs) p) eqn:E; [done | |];
        rewrite Hsettled in Hb by (by rewrite E); congruence. }
    destruct (IH eq_refl Hb0) as (Hwait & Hl0).
    destruct (pending_slot _ p Hslot Hs Hb0) as (o & fo & -> & Hh & He & _).
    destruct ev as [options|p' out|q out]; simpl in *.
    + pose proof (ensure_on_slot options _ 0 Hs) as Hshape.
      rewrite Hb0 in Hshape. rewrite Hshape. simpl. split; [| done].
      apply Forall_app. split; [done |]. apply Forall_singleton. by right.
    + destruct p' as [|p'].
      * exfalso.
        destruct (settleConstruction_ok 0 out _ Hslot Hloads) as (S1 & L1 & E1 & C1).
        destruct (wake_same _ S1 L1) as (Hw & _).
        { rewrite C1. by eapply callsInv_extends. }
        unfold_status. rewrite Hw in Hb.
        pose proof (settleConstruction_settles (run evs) 0 o out) as Hset.
        rewrite Hh in Hset. specialize (Hset eq_refl).
        unfold_status. destruct out; rewrite Hset in Hb; done.
      * assert (settleConstruction (S p') out (run evs) = run evs) as ->.
        { unfold_settle. by rewrite Hh. }
        by rewrite (wake_pending _ 0 Hb0 Hwait).
    + assert (settleLoad q out (run evs) = run evs) as ->.
      { unfold_settle. by rewrite Hl0. }
      by rewrite (wake_pending _ 0 Hb0 Hwait).
  - unfold_invariants. rewrite Hs in Hslot.
    destruct Hslot as (Hh & He & Hf & Hc).
    pose proof (loads_nil _ Hloads He) as Hl0. specialize (Hnone eq_refl).
    destruct ev as [options|p' out|q out]; simpl in *.
    + destruct (ensure_first options _ Hinv Hs) as (h & t & E & Hreq).
      rewrite E in Hp, Hb |- *. simpl in *. injection Hp as <-.
      unfold_status. simpl in Hb.
      destruct (getHighlighterRequest (Some (factoryOptions options))).
      * destruct Hreq as [-> ->]. split; [| done].
        apply Forall_singleton. by left.
      * destruct Hreq as [-> ->]. done.
    + exfalso. assert (settleConstruction p' out (run evs) = run evs) as E.
      { unfold_settle. by rewrite Hh. }
      rewrite E in Hp. unfold_wake. rewrite Hnone in Hp. simpl in Hp. congruence.
    + exfalso. assert (settleLoad q out (run evs) = run evs) as E.
      { unfold_settle. by rewrite Hl0. }
      rewrite E in Hp. unfold_wake. rewrite Hnone in Hp. simpl in Hp. congruence.
Qed.

(** Once every call there is has failed with the error of the rejected
    promise in the slot, so does every call there will be. *)
Lemma rejected_for_all σ p e later :
  invariant σ -> _shiki σ = Some p -> builtOf σ p = Rejected e ->
  Forall (fun c => task c = Done (Throw e)) (calls σ) ->
  builtOf (fold_left step later σ) p = Rejected e /\
  engineCalls (fold_left step later σ) = engineCalls σ /\
  engines (fold_left step later σ) = [] /\
  forall k, k < length (calls (fold_left step later σ)) ->
            outcome (fold_left step later σ) k = Some (Throw e).
Proof.
  intros Hinv Hp Hb Hall.
  destruct (steps_frame later σ p Hinv Hp)
    as ((Hs & _ & Hc & Hsettled & _) & cs' & added & Hcalls & R & A).
  assert (builtOf (fold_left step later σ) p = Rejected e) as Hb'.
  { rewrite Hsettled; [done |]. by rewrite Hb. }
  split; [done |]. split; [done |]. split.
  - destruct (steps_ok later σ Hinv) as (Hslot & _).
    eapply rejected_no_engine; [done | | done]. congruence.
  - intros k Hk. apply outcome_Some. rewrite Hcalls in Hk |- *.
    destruct (decide (k < length cs')) as [Hlt|Hge].
    + destruct (lookup_lt_is_Some_2 cs' k Hlt) as [c' Hc'].
      exists c'. split; [by apply lookup_app_l_Some |].
      destruct (Forall2_lookup_r _ _ _ _ _ R Hc') as (c & Hck & _ & Hd).
      apply Hd. exact (Forall_lookup_1 _ _ _ _ Hall Hck).
    + rewrite length_app in Hk.
      destruct (lookup_lt_is_Some_2 added (k - length cs')) as [c Hc']; [lia |].
      exists c. split; [rewrite lookup_app_r by lia; done |].
      exact (Forall_lookup_1 _ _ _ _ A Hc' e Hb).
Qed.

Lemma step_init (ev : Event) :
  (forall options, ev <> Ensure options) -> step (init : State) ev = init.
Proof. destruct ev as [options|p out|q out]; [by intros H; destruct (H options) | |]; done. Qed.

(** X4. The slot is empty exactly until the first call: settlements that
    arrive before any call change nothing, the first call fills the slot
    whatever its outcome, and nothing that happens afterwards empties the
    slot or puts another promise in it. *)
Theorem slot_is_set_once (evs : list Event) :
  (Forall (fun ev => forall options, ev <> Ensure options) evs -> run evs = init) /\
  (Exists (fun ev => exists options, ev = Ensure options) evs ->
   _shiki (run evs) = Some 0) /\
  (forall later p,
     _shiki (run evs) = Some p -> _shiki (run (evs ++ later)) = Some p).
Proof.
  assert (forall later p,
    _shiki (run evs) = Some p -> _shiki (run (evs ++ later)) = Some p) as Hkeep.
  { intros later p Hp. rewrite run_app.
    destruct (steps_frame later _ p (run_ok evs) Hp) as ((-> & _) & _). done. }
  split; [| split; [| done]].
  - clear Hkeep. unfold_run. induction 1 as [|ev evs' Hev _ IH]; [done |].
    cbn [fold_left]. rewrite step_init by done. exact IH.
  - clear Hkeep. induction evs as [|ev evs IH] using rev_ind.
    + by intros H%Exists_nil.
    + rewrite run_snoc. intros [Hex|Hex]%Exists_app.
      * specialize (IH Hex).
        by destruct (step_frame _ ev 0 (run_ok evs) IH) as ((-> & _) & _).
      * apply Exists_cons in Hex as [[options ->]|H%Exists_nil]; [| done].
        simpl. pose proof (run_ok evs) as Hinv.
        destruct (_shiki (run evs)) as [p|] eqn:Hs.
        -- destruct (ensure_later options _ p Hinv Hs) as (? & ? & -> & _).
           simpl. destruct Hinv as (Hslot & _). unfold_invariants.
           rewrite Hs in Hslot. destruct Hslot as (-> & _). done.
        -- by destruct (ensure_first options _ Hinv Hs) as (? & ? & -> & _).
Qed.

(** X5. [getHighlighter] itself remembers nothing: called twice, even with
    the same options, it returns two different promises, resolves twice and
    asks the engine for an instance each time the options resolve, and it
    leaves the slot, the calls, the loads, the instances and the promises
    that exist alone. *)
Theorem getHighlighter_never_reuses
    (options1 options2 : BundledHighlighterOptions) σ :
  (getHighlighter options1 σ).2 = length (highlighters σ) /\
  (getHighlighter options2 (getHighlighter options1 σ).1).2
    = S (length (highlighters σ)) /\
  factoryCalls (getHighlighter options2 (getHighlighter options1 σ).1).1
    = factoryCalls σ ++ [options1; options2] /\
  (forall o1 o2,
     getHighlighterRequest (Some options1) = Ok o1 ->
     getHighlighterRequest (Some options2) = Ok o2 ->
     engineCalls (getHighlighter options2 (getHighlighter options1 σ).1).1
       = engineCalls σ ++ [o1; o2]) /\
  (forall p h,
     highlighters σ !! p = Some h ->
     highlighters (getHighlighter options2 (getHighlighter options1 σ).1).1 !! p
       = Some h) /\
  _shiki (getHighlighter options2 (getHighlighter options1 σ).1).1 = _shiki σ /\
  calls (getHighlighter options2 (getHighlighter options1 σ).1).1 = calls σ /\
  loads (getHighlighter options2 (getHighlighter options1 σ).1).1 = loads σ /\
  engines (getHighlighter options2 (getHighlighter options1 σ).1).1 = engines σ.
Proof.
  unfold_ensure.
  destruct (getHighlighterRequest (Some options1)) as [o1|e1] eqn:H1;
    destruct (getHighlighterRequest (Some options2)) as [o2|e2] eqn:H2;
    simpl; rewrite ?length_app, <- ?app_assoc; simpl;
    (split; [done |]); (split; [lia |]); (split; [done |]);
    (split; [by intros ? ? [= <-] [= <-] |]);
    (split; [| done]);
    intros p h Hp; by repeat apply lookup_app_l_Some.
Qed.

(** X6. When the first call names an id that is not bundled, the factory is
    spent: the engine is never asked for an instance, and that first
    [NotBundled] error is what the first caller and every later caller get,
    whatever they ask for. *)
Theorem first_call_failure_poisons (first : ThemeLang) (rest : list Event) e :
  getHighlighterRequest (Some (factoryOptions first)) = Throw e ->
  (exists k id, e = NotBundled k id) /\
  engineCalls (run (Ensure first :: rest)) = [] /\
  engines (run (Ensure first :: rest)) = [] /\
  forall k, k < length (calls (run (Ensure first :: rest))) ->
            outcome (run (Ensure first :: rest)) k = Some (Throw e).
Proof.
  intros Hreq. split; [by eapply request_Throw |].
  change (run (Ensure first :: rest))
    with (fold_left step rest (run [Ensure first])).
  destruct (ensure_first first init invariant_init eq_refl) as (h & t & E & Hh).
  rewrite Hreq in E, Hh. destruct Hh as [-> ->].
  assert (run [Ensure first] = getShikiWithThemeLang first init) as Hrun by done.
  rewrite <- Hrun in E.
  destruct (rejected_for_all (run [Ensure first]) 0 e rest)
    as (_ & Hc & He & Hall).
  - apply run_ok.
  - by rewrite E.
  - unfold_status. by rewrite E.
  - rewrite E. simpl. by apply Forall_singleton.
  - split; [by rewrite Hc, E |]. split; done.
Qed.

(** X7. When the engine fails to construct the instance, every caller gets
    the engine's error: those that were waiting at that moment, the first
    one included, and all that come later; no instance ever exists. *)
Theorem engine_failure_reaches_every_caller
    (evs later : list Event) p (err : EngineError) :
  _shiki (run evs) = Some p -> builtOf (run evs) p = Pending ->
  builtOf (run (evs ++ EngineBuilt p (Some err) :: later)) p
    = Rejected (EngineFailure err) /\
  engines (run (evs ++ EngineBuilt p (Some err) :: later)) = [] /\
  forall k,
    k < length (calls (run (evs ++ EngineBuilt p (Some err) :: later))) ->
    outcome (run (evs ++ EngineBuilt p (Some err) :: later)) k
      = Some (Throw (EngineFailure err)).
Proof.
  intros Hp Hb.
  destruct (pending_calls evs p Hp Hb) as (Hwait & Hl0).
  pose proof (run_ok evs) as Hinv.
  pose proof Hinv as (Hslot & Hloads & Hcalls & _).
  destruct (pending_slot _ p Hslot Hp Hb) as (o & fo & -> & Hh & _).
  rewrite run_app. simpl.
  set (σ1 := step (run evs) (EngineBuilt 0 (Some err))).
  assert (invariant σ1) as Hinv1 by (by apply step_ok).
  destruct (step_frame _ (EngineBuilt 0 (Some err)) 0 Hinv Hp) as ((Hs1 & _) & _).
  fold σ1 in Hs1.
  destruct (settleConstruction_ok 0 (Some err) _ Hslot Hloads)
    as (S1 & L1 & E1 & C1).
  pose proof (settleConstruction_settles (run evs) 0 o (Some err)) as Hset.
  rewrite Hh in Hset. specialize (Hset eq_refl).
  destruct (resumeAll_rejected (calls (run evs))
              (settleConstruction 0 (Some err) (run evs)) 0 _ Hset Hwait)
    as (cs' & Hres & _ & Hfail).
  assert (σ1 = setCalls cs' (settleConstruction 0 (Some err) (run evs))) as Hσ1.
  { unfold σ1. simpl. unfold_wake. by rewrite C1, Hres. }
  destruct (rejected_for_all σ1 0 (EngineFailure err) later Hinv1)
    as (Hrej & _ & He & Hall).
  - congruence.
  - rewrite Hσ1. exact Hset.
  - by rewrite Hσ1.
  - done.
Qed.

Lemma resume_highlighters req t σ :
  highlighters (resume req t σ).1 = highlighters σ.
Proof.
  destruct t as [p|p|s pt pl|r]; unfold_resume; simpl.
  - by destruct (builtOf σ p).
  - destruct (builtOf σ p); try done. unfold_highlighter.
    destruct (mapR resolveTheme _); simpl; [| done].
    by destruct (mapR resolveLang _).
  - by destruct (all _ _).
  - done.
Qed.

Lemma resumeAll_fulfilled cs σ p s :
  builtOf σ p = Fulfilled s ->
  Forall (fun c => task c = Returned p \/ task c = AwaitShiki p) cs ->
  Forall2 (delivered isPlaintext bundledLanguages bundledThemes s)
    cs (resumeAll cs σ).2.
Proof.
  intros Hb Hall. revert σ Hb.
  induction Hall as [|[req t] cs Ht _ IH]; intros σ Hb; simpl; [constructor |].
  destruct (resume req t σ) as [σ1 t1] eqn:E1.
  assert (builtOf σ1 p = Fulfilled s) as Hb1.
  { unfold_status. pose proof (resume_highlighters req t σ) as Hh.
    rewrite E1 in Hh. simpl in Hh. by rewrite Hh. }
  specialize (IH σ1 Hb1). destruct (resumeAll cs σ1) as [σ2 cs2]. simpl in *.
  constructor; [| done]. split; [done |]. simpl.
  destruct Ht as [-> | ->]; unfold_resume; rewrite Hb in E1.
  - by injection E1 as _ <-.
  - unfold_highlighter. unfold_invariants.
    destruct (mapR resolveTheme _) as [ts|et]; simpl in *.
    + destruct (mapR resolveLang _) as [ls|el]; simpl in *.
      * injection E1 as _ <-. by eexists _, _.
      * by injection E1 as _ <-.
    + by injection E1 as _ <-.
Qed.

Lemma resumeAll_loads cs σ p s :
  builtOf σ p = Fulfilled s ->
  Forall (fun c => task c = Returned p \/ task c = AwaitShiki p) cs ->
  loads (resumeAll cs σ).1 =
    loads σ ++ flat_map (requested isPlaintext bundledLanguages bundledThemes s) cs.
Proof.
  intros Hb Hall. revert σ Hb.
  induction Hall as [|[req t] cs Ht _ IH]; intros σ Hb; simpl.
  { by rewrite app_nil_r. }
  destruct (resume req t σ) as [σ1 t1] eqn:E1.
  assert (builtOf σ1 p = Fulfilled s) as Hb1.
  { unfold_status. pose proof (resume_highlighters req t σ) as Hh.
    rewrite E1 in Hh. simpl in Hh. by rewrite Hh. }
  specialize (IH σ1 Hb1). destruct (resumeAll cs σ1) as [σ2 cs2]. simpl in *.
  rewrite IH, app_assoc. f_equal.
  unfold requested. simpl.
  destruct Ht as [-> | ->]; unfold_resume; rewrite Hb in E1.
  - injection E1 as <- _. by rewrite app_nil_r.
  - unfold_highlighter. unfold_invariants.
    destruct (mapR resolveTheme _) as [ts|et]; simpl in *.
    + destruct (mapR resolveLang _) as [ls|el]; simpl in *.
      * injection E1 as <- _. simpl. by rewrite <- app_assoc.
      * by injection E1 as <- _.
    + injection E1 as <- _. by rewrite app_nil_r.
Qed.

Lemma requested_pending s (cs : list Call) :
  Forall
    (fun l : @LoadPromise EngineError LanguageRegistration LanguageSource
               ThemeInput RenderOptions => loaded l = Pending)
    (flat_map (requested isPlaintext bundledLanguages bundledThemes s) cs).
Proof.
  induction cs as [|c cs IH]; simpl; [constructor |].
  apply Forall_app. split; [| done]. unfold requested.
  destruct (task c); try constructor.
  destruct (resolvedThemes (request c)); [| constructor].
  constructor; [done |].
  destruct (resolvedLangs (request c)); repeat constructor.
Qed.

(** X8. When the engine delivers the instance, the loads that exist are
    exactly those of the callers that were waiting behind the first one, in
    the order of the calls: the first caller is given the instance at once
    and no load is requested for it; every other waiting caller has its
    theme load and its language load requested on that instance and waits
    for these two, or, when one of its ids does not resolve, fails with
    that error (the theme's when both fail, and then without any load; the
    language's after its theme load was requested). Exactly one instance
    exists. *)
Theorem engine_delivery_resumes_callers (evs : list Event) p :
  _shiki (run evs) = Some p -> builtOf (run evs) p = Pending ->
  builtOf (run (evs ++ [EngineBuilt p None])) p = Fulfilled 0 /\
  length (engines (run (evs ++ [EngineBuilt p None]))) = 1 /\
  loads (run (evs ++ [EngineBuilt p None])) =
    flat_map (requested isPlaintext bundledLanguages bundledThemes 0)
      (calls (run evs)) /\
  Forall2 (delivered isPlaintext bundledLanguages bundledThemes 0)
    (calls (run evs)) (calls (run (evs ++ [EngineBuilt p None]))) /\
  (forall k c' s pt pl,
     calls (run (evs ++ [EngineBuilt p None])) !! k = Some c' ->
     task c' = AwaitLoads s pt pl ->
     exists ts ls,
       resolvedThemes (request c') = Ok ts /\
       resolvedLangs (request c') = Ok ls /\
       loads (run (evs ++ [EngineBuilt p None])) !! pt =
         Some {| target := s; loadCall := CoreLoadTheme ts; loaded := Pending |} /\
       loads (run (evs ++ [EngineBuilt p None])) !! pl =
         Some {| target := s; loadCall := CoreLoadLanguage ls; loaded := Pending |}).
Proof.
  intros Hp Hb.
  destruct (pending_calls evs p Hp Hb) as (Hwait & Hl0).
  pose proof (run_ok evs) as (Hslot & Hloads & Hcalls & _).
  destruct (pending_slot _ p Hslot Hp Hb) as (o & fo & -> & Hh & He & _).
  assert (loads (run (evs ++ [EngineBuilt 0 None])) =
    flat_map (requested isPlaintext bundledLanguages bundledThemes 0)
      (calls (run evs))) as Hrequested.
  { rewrite run_snoc. simpl.
    destruct (settleConstruction_ok 0 None _ Hslot Hloads) as (_ & _ & _ & C1).
    pose proof (settleConstruction_settles (run evs) 0 o None) as Hset.
    rewrite Hh in Hset. specialize (Hset eq_refl). rewrite He in Hset.
    pose proof (resumeAll_loads (calls (run evs))
                  (settleConstruction 0 None (run evs)) 0 0 Hset Hwait) as Hl.
    unfold_wake. rewrite C1.
    destruct (resumeAll (calls (run evs)) (settleConstruction 0 None (run evs))).
    simpl in *. rewrite Hl. unfold_settle. rewrite Hh. simpl. by rewrite Hl0. }
  split; [| split; [| split; [exact Hrequested | split]]].
  - rewrite run_snoc. simpl.
    destruct (settleConstruction_ok 0 None _ Hslot Hloads) as (S1 & L1 & E1 & C1).
    pose proof (settleConstruction_settles (run evs) 0 o None) as Hset.
    rewrite Hh in Hset. specialize (Hset eq_refl). rewrite He in Hset.
    destruct (wake_same _ S1 L1) as (Hwh & _).
    { rewrite C1. by eapply callsInv_extends. }
    unfold_status. by rewrite Hwh.
  - rewrite run_snoc. simpl.
    destruct (settleConstruction_ok 0 None _ Hslot Hloads) as (S1 & L1 & E1 & C1).
    destruct (wake_same _ S1 L1) as (_ & Hwe & _).
    { rewrite C1. by eapply callsInv_extends. }
    rewrite Hwe. unfold_settle. rewrite Hh, He. done.
  - rewrite run_snoc. simpl.
    destruct (settleConstruction_ok 0 None _ Hslot Hloads) as (_ & _ & _ & C1).
    pose proof (settleConstruction_settles (run evs) 0 o None) as Hset.
    rewrite Hh in Hset. specialize (Hset eq_refl). rewrite He in Hset.
    pose proof (resumeAll_fulfilled (calls (run evs))
                  (settleConstruction 0 None (run evs)) 0 0 Hset Hwait) as Hdel.
    unfold_wake. rewrite C1.
    by destruct (resumeAll (calls (run evs)) (settleConstruction 0 None (run evs))).
  - intros k c' s pt pl Hk Ht.
    destruct (run_ok (evs ++ [EngineBuilt 0 None])) as (_ & _ & Hinv & _).
    pose proof (Forall_lookup_1 _ _ _ _ Hinv Hk) as Hc. cbv beta in Hc.
    rewrite Ht in Hc.
    destruct Hc as (_ & ts & ls & Hts & Hls & [st Hpt] & [st' Hpl]).
    pose proof (requested_pending 0 (calls (run evs))) as Hpending.
    rewrite <- Hrequested in Hpending.
    pose proof (Forall_lookup_1 _ _ _ _ Hpending Hpt) as Est.
    pose proof (Forall_lookup_1 _ _ _ _ Hpending Hpl) as Est'.
    simpl in Est, Est'. subst st st'. by exists ts, ls.
Qed.

(** X9. A later call whose theme is not bundled fails before anything is
    asked of the engine, whatever its language; a later call whose theme
    resolves and whose language is not bundled fails too, but its theme load
    has been requested by then and stays requested. Neither touches the
    slot or the instance. *)
Theorem later_call_resolution_failure (options : ThemeLang) σ p s :
  _shiki σ = Some p -> builtOf σ p = Fulfilled s ->
  (forall e,
     resolvedThemes options = Throw e ->
     getShikiWithThemeLang options σ =
       setCalls (calls σ ++ [{| request := options; task := Done (Throw e) |}]) σ) /\
  (forall ts e,
     resolvedThemes options = Ok ts -> resolvedLangs options = Throw e ->
     getShikiWithThemeLang options σ =
       setCalls (calls σ ++ [{| request := options; task := Done (Throw e) |}])
         (setLoads
            (loads σ ++
               [{| target := s; loadCall := CoreLoadTheme ts; loaded := Pending |}])
            σ)).
Proof.
  intros Hp Hb. unfold_ensure. rewrite Hp. unfold_resume. rewrite Hb.
  unfold_highlighter. unfold_invariants. split.
  - intros e ->. done.
  - intros ts e -> ->. done.
Qed.

(** X10. Asking again for what the factory was started with never fails to
    resolve: once the instance is there, a call with the themes and
    languages of the first call requests the loads of exactly the
    definitions the engine was constructed with. *)
Theorem repeated_request_reaches_loads (evs : list Event) (options : ThemeLang) p s :
  factoryCalls (run evs) = [factoryOptions options] ->
  _shiki (run evs) = Some p -> builtOf (run evs) p = Fulfilled s ->
  exists o,
    engineCalls (run evs) = [o] /\
    getShikiWithThemeLang options (run evs) =
      setCalls
        (calls (run evs) ++
           [{| request := options;
               task := AwaitLoads s (length (loads (run evs)))
                         (S (length (loads (run evs)))) |}])
        (setLoads
           (loads (run evs) ++
              [{| target := s; loadCall := CoreLoadTheme (coreThemes o);
                  loaded := Pending |};
               {| target := s; loadCall := CoreLoadLanguage (coreLangs o);
                  loaded := Pending |}]) (run evs)).
Proof.
  intros Hf Hp Hb. pose proof (run_ok evs) as (Hslot & _).
  destruct (slot_fulfilled _ p s Hslot Hp Hb)
    as (fo & o & e & -> & -> & Hfo & Ho & _).
  rewrite Hf in Hfo. injection Hfo as <-.
  exists o. split.
  - unfold_invariants. rewrite Hp in Hslot.
    destruct Hslot as (_ & h & fo' & _ & Hfo' & Hreq).
    rewrite Hf in Hfo'. injection Hfo' as <-. rewrite Ho in Hreq.
    by destruct Hreq as (_ & ? & _).
  - apply request_factoryOptions in Ho as [Hts Hls].
    pose proof (ensure_on_slot options _ 0 Hp) as Hshape. rewrite Hb in Hshape.
    by apply Hshape.
Qed.


(** X11. The theme ids [codeToHtmlThemes] asks for are the truthy values of
    [options.themes] themselves, in property order and with repetitions
    kept: the cast to ids loses none of them, and when every role has a
    non-empty id all of them are asked for. *)
Theorem codeToHtmlThemes_keeps_order
    (code : string) (options : ThemesOptions (RenderOptions := RenderOptions)) :
  map Some (toArray (theme (ensureOptions (codeToHtmlThemes code options))))
    = List.filter Boolean (Object_values (optsThemes options)) /\
  (Forall (fun v => Boolean v = true) (Object_values (optsThemes options)) ->
   map Some (toArray (theme (ensureOptions (codeToHtmlThemes code options))))
     = Object_values (optsThemes options)).
Proof.
  rewrite ensureOptions_themes. cbn [theme toArray]. rewrite asIds_Some.
  split; [done |].
  induction 1 as [|v vs Hv _ IH]; simpl; [done |]. by rewrite Hv, IH.
Qed.

End Singleton.

(** ** The properties on the example bundle *)

(** C2: [plaintext] is a key of the example table, and resolving it gives
    the empty list, not the table's value. *)
Lemma resolveLang_key_not_returned :
  own exampleLanguages !! "plaintext" = Some (LangSource ()) /\
  resolveLang (EngineError := string) isPlaintextMarker exampleLanguages
    (LangId "plaintext") <> Ok (LangSource ()).
Proof. split; [vm_compute; reflexivity | vm_compute; discriminate]. Qed.

Lemma resolve_by_table_example :
  resolveLang (EngineError := string) isPlaintextMarker exampleLanguages
    (LangId "js") = Ok (LangArray ["source.js"]) /\
  resolveLang (EngineError := string) isPlaintextMarker exampleLanguages
    (LangId "rust") = Throw (NotBundled Language "rust") /\
  resolveTheme (EngineError := string) exampleThemes (ThemeId "nord")
    = Ok "nord.json" /\
  resolveTheme (EngineError := string) exampleThemes (ThemeId "solarized")
    = Throw (NotBundled Theme "solarized").
Proof.
  destruct (resolve_by_table (EngineError := string)
              isPlaintextMarker exampleLanguages exampleThemes "js")
    as (Hjs & _).
  destruct (resolve_by_table (EngineError := string)
              isPlaintextMarker exampleLanguages exampleThemes "rust")
    as (_ & Hrust & _).
  destruct (resolve_by_table (EngineError := string)
              isPlaintextMarker exampleLanguages exampleThemes "nord")
    as (_ & _ & Hnord & _).
  destruct (resolve_by_table (EngineError := string)
              isPlaintextMarker exampleLanguages exampleThemes "solarized")
    as (_ & _ & _ & Hsolarized & _).
  split; [| split; [| split]].
  - apply Hjs; vm_compute; reflexivity.
  - apply Hrust; vm_compute; reflexivity.
  - apply Hnord; vm_compute; reflexivity.
  - apply Hsolarized; vm_compute; reflexivity.
Defined.

Lemma resolveLang_plaintext_example :
  isPlaintextMarker "plaintext" = true /\
  resolveLang (EngineError := string) isPlaintextMarker exampleLanguages
    (LangId "plaintext") = Ok (LangArray []) /\
  resolveLang (EngineError := string) isPlaintextMarker noLanguages
    (LangId "plaintext") = Ok (LangArray []).
Proof.
  split; [reflexivity |]. split.
  - apply (resolveLang_plaintext isPlaintextMarker exampleLanguages "plaintext").
    reflexivity.
  - apply (resolveLang_plaintext isPlaintextMarker noLanguages "plaintext").
    reflexivity.
Defined.

(** C4: the id [plaintext] is in no table, and yet [getHighlighter] resolves
    it and calls the engine. *)
Lemma getHighlighter_absent_plaintext :
  own noLanguages !! "plaintext" = None /\
  inherited noLanguages !! "plaintext" = None /\
  getHighlighterRequest (EngineError := string) (OptionValue := unit)
    isPlaintextMarker noLanguages noThemes ()
    (Some {| themes := None; langs := Some [LangId "plaintext"]; others := ∅ |})
  = Ok {| coreThemes := []; coreLangs := [LangArray []]; loadWasm := ();
          coreOthers := ∅ |} /\
  engineCalls
    (getHighlighter (EngineError := string) (RenderOptions := unit)
       isPlaintextMarker noLanguages noThemes ()
       {| themes := None; langs := Some [LangId "plaintext"]; others := ∅ |}
       exampleInit).1
  = [{| coreThemes := []; coreLangs := [LangArray []]; loadWasm := ();
        coreOthers := (∅ : gmap string unit) |}].
Proof. split; [| split; [| split]]; vm_compute; reflexivity. Qed.

Lemma getHighlighter_not_bundled_example :
  LangId "unknown-lang" ∈ [LangId (LanguageRegistration := string)
                             (LanguageSource := unit) "unknown-lang"] /\
  exists k id,
    getHighlighterRequest (EngineError := string) (OptionValue := unit)
      isPlaintextMarker exampleLanguages exampleThemes ()
      (Some {| themes := None; langs := Some [LangId "unknown-lang"];
               others := ∅ |})
    = Throw (NotBundled k id) /\
    engineCalls
      (getHighlighter (EngineError := string) (RenderOptions := unit)
         isPlaintextMarker exampleLanguages exampleThemes ()
         {| themes := None; langs := Some [LangId "unknown-lang"]; others := ∅ |}
         exampleInit).1
    = [].
Proof.
  split; [apply list_elem_of_In; left; reflexivity |].
  destruct (getHighlighter_not_bundled (EngineError := string)
              (RenderOptions := unit)
              isPlaintextMarker exampleLanguages exampleThemes ()
              {| themes := None; langs := Some [LangId "unknown-lang"];
                 others := (∅ : gmap string unit) |}
              exampleInit) as (k & id & Hreq & _ & Hcalls & _).
  - right. exists "unknown-lang". split; [| split].
    + apply list_elem_of_In. left. reflexivity.
    + reflexivity.
    + vm_compute. reflexivity.
  - exists k, id. split; [exact Hreq | exact Hcalls].
Defined.

(** C9: a list holding one id made of a space does not resolve to the empty
    sequence; it fails like any other id that is not in the table. *)
Lemma getHighlighter_whitespace_id :
  getHighlighterRequest (EngineError := string) (OptionValue := unit)
    isPlaintextMarker exampleLanguages exampleThemes ()
    (Some {| themes := Some [ThemeId " "]; langs := None; others := ∅ |})
  = Throw (NotBundled Theme " ").
Proof. vm_compute. reflexivity. Qed.

Lemma getHighlighter_empty_lists_example :
  getHighlighterRequest (EngineError := string) (OptionValue := unit)
    isPlaintextMarker exampleLanguages exampleThemes ()
    (Some {| themes := Some []; langs := None; others := ∅ |})
  = Ok {| coreThemes := []; coreLangs := []; loadWasm := (); coreOthers := ∅ |}.
Proof.
  destruct (getHighlighter_empty_lists (EngineError := string)
              isPlaintextMarker exampleLanguages exampleThemes ()
              {| themes := Some []; langs := None;
                 others := (∅ : gmap string unit) |})
    as (_ & _ & Hboth & _).
  apply Hboth.
  - right. reflexivity.
  - left. reflexivity.
Defined.

Lemma highlighter_entry_points_example :
  highlighter (EngineError := string) isPlaintextMarker exampleLanguages
    exampleThemes ()
    (LoadLanguage [LangId "js"; LangId "plaintext"; LangInline (LangSource ())])
  = Ok (CoreLoadLanguage [LangArray ["source.js"]; LangArray []; LangSource ()]).
Proof.
  apply (highlighter_entry_points (EngineError := string)
           isPlaintextMarker exampleLanguages exampleThemes ()).
  eexists. split; [reflexivity |].
  repeat constructor.
Defined.

Lemma singleton_one_construction_example :
  outcome (exampleRun (twoCallers darkPlaintext)) 0 = Some (Ok 0) /\
  outcome (exampleRun (twoCallers darkPlaintext)) 1 = Some (Ok 0) /\
  0 = 0 /\
  factoryCalls (exampleRun (twoCallers darkPlaintext)) = [factoryOptions nordJs].
Proof.
  pose proof (@singleton_one_construction string string unit string unit unit unit
                isPlaintextMarker exampleLanguages exampleThemes () ()
                (twoCallers darkPlaintext))
    as (_ & _ & _ & _ & Hsame & Htwo).
  split; [vm_compute; reflexivity |]. split; [vm_compute; reflexivity |].
  split.
  - apply (Hsame 0 1 0 0); vm_compute; reflexivity.
  - apply (Htwo nordJs darkPlaintext
             [EngineBuilt 0 None; EngineLoaded 0 None; EngineLoaded 1 None]).
    reflexivity.
Defined.

Lemma ensure_extends_the_instance_example :
  outcome (exampleRun (twoCallers darkJs)) 1 = Some (Ok 0) /\
  length (factoryCalls (exampleRun (twoCallers darkJs))) = 1 /\
  exists e,
    engines (exampleRun (twoCallers darkJs)) !! 0 = Some e /\
    length (engines (exampleRun (twoCallers darkJs))) = 1 /\
    "nord.json" ∈ loadedThemes e /\ "vitesse-dark.json" ∈ loadedThemes e.
Proof.
  split; [vm_compute; reflexivity |].
  apply (@ensure_extends_the_instance string string unit string unit unit unit
           isPlaintextMarker exampleLanguages exampleThemes () ()
           (twoCallers darkJs))
    with (A := "nord") (B := "vitesse-dark") (x := One "js")
         (rest := [EngineBuilt 0 None; EngineLoaded 0 None; EngineLoaded 1 None]);
    vm_compute; reflexivity.
Defined.

Lemma failed_construction_is_kept_example :
  builtOf (exampleRun failedStart) 0 = Rejected (EngineFailure "wasm failed") /\
  _shiki (exampleRun (failedStart ++ [Ensure darkJs; EngineBuilt 0 None]))
    = Some 0 /\
  length (factoryCalls
            (exampleRun (failedStart ++ [Ensure darkJs; EngineBuilt 0 None]))) = 1 /\
  outcome (exampleRun (failedStart ++ [Ensure darkJs; EngineBuilt 0 None])) 1
    = Some (Throw (EngineFailure "wasm failed")).
Proof.
  split; [vm_compute; reflexivity |].
  destruct (@failed_construction_is_kept string string unit string unit unit unit
              isPlaintextMarker exampleLanguages exampleThemes () ()
              failedStart [Ensure darkJs; EngineBuilt 0 None] 0
              (EngineFailure "wasm failed"))
    as (Hslot & _ & _ & Hone & _ & _ & Hlater).
  - vm_compute. reflexivity.
  - vm_compute. reflexivity.
  - split; [exact Hslot |]. split; [exact Hone |].
    apply Hlater. vm_compute. lia.
Defined.


Lemma codeToHtmlThemes_skips_empty_string_example :
  theme
    (ensureOptions
       (codeToHtmlThemes "let x = 1"
          {| optsLang := "js"; optsThemes := emptyLight; optsObject := () |}))
  = Many ["nord"] /\
  resolvedThemes (EngineError := string) noThemes
    (ensureOptions
       (codeToHtmlThemes "let x = 1"
          {| optsLang := "js"; optsThemes := emptyLight; optsObject := () |}))
  <> Throw (NotBundled Theme "").
Proof.
  pose proof (@codeToHtmlThemes_skips_empty_string string string unit string unit unit unit
                isPlaintextMarker exampleLanguages noThemes () ()
                "let x = 1" "js" () [] [("dark", Some "nord")] "light")
    as (Hskip & _ & _ & Hnever).
  split.
  - exact (eq_trans (f_equal theme Hskip) eq_refl).
  - intros H. exact (Hnever _ _ H eq_refl).
Defined.

(** ** The further properties on the example bundle *)

Lemma getHighlighter_request_shape_example :
  getHighlighterRequest (EngineError := string)
    isPlaintextMarker exampleLanguages exampleThemes () (Some mixedOptions)
  = Ok {| coreThemes := ["nord.json"; "mine.json"];
          coreLangs := [LangArray ["source.js"]; LangArray []];
          loadWasm := (); coreOthers := ∅ |}.
Proof.
  apply (getHighlighter_request_shape (EngineError := string)
           isPlaintextMarker exampleLanguages exampleThemes () mixedOptions).
  repeat split; repeat constructor.
Defined.

Lemma getHighlighter_theme_error_first_example :
  ThemeId "solarized" ∈ default [] (themes twoMissing) /\
  exampleThemes !! "solarized" = None /\
  exists id',
    getHighlighterRequest (EngineError := string)
      isPlaintextMarker exampleLanguages exampleThemes () (Some twoMissing)
    = Throw (NotBundled Theme id').
Proof.
  assert (ThemeId "solarized" ∈ default [] (themes twoMissing)) as Hin.
  { apply list_elem_of_In. right. left. reflexivity. }
  assert (exampleThemes !! "solarized" = None) as Hnone.
  { vm_compute. reflexivity. }
  split; [exact Hin |]. split; [exact Hnone |].
  destruct (getHighlighter_theme_error_first (EngineError := string)
              isPlaintextMarker exampleLanguages exampleThemes () twoMissing
              "solarized" Hin Hnone) as (id' & Hreq & _).
  exists id'. exact Hreq.
Defined.

Lemma slot_is_set_once_example :
  exampleRun [EngineBuilt 0 None; EngineLoaded 3 None] = init /\
  _shiki (exampleRun [EngineBuilt 0 None; Ensure unknownTheme]) = Some 0 /\
  _shiki (exampleRun ([EngineBuilt 0 None; Ensure unknownTheme] ++ twoCallers darkJs))
    = Some 0.
Proof.
  pose proof (@slot_is_set_once string string unit string unit unit unit
                isPlaintextMarker exampleLanguages exampleThemes () ()
                [EngineBuilt 0 None; EngineLoaded 3 None]) as (Hinit & _).
  pose proof (@slot_is_set_once string string unit string unit unit unit
                isPlaintextMarker exampleLanguages exampleThemes () ()
                [EngineBuilt 0 None; Ensure unknownTheme]) as (_ & Hset & Hkeep).
  split; [| split].
  - apply Hinit. repeat constructor; discriminate.
  - apply Hset. right. left. eexists. reflexivity.
  - apply Hkeep. vm_compute. reflexivity.
Defined.

Lemma getHighlighter_never_reuses_example :
  engineCalls
    (getHighlighter isPlaintextMarker exampleLanguages exampleThemes ()
       (factoryOptions nordJs)
       (getHighlighter isPlaintextMarker exampleLanguages exampleThemes ()
          (factoryOptions nordJs) exampleInit).1).1
  = [{| coreThemes := ["nord.json"]; coreLangs := [LangArray ["source.js"]];
        loadWasm := (); coreOthers := ∅ |};
     {| coreThemes := ["nord.json"]; coreLangs := [LangArray ["source.js"]];
        loadWasm := (); coreOthers := ∅ |}].
Proof.
  destruct (@getHighlighter_never_reuses string string unit string unit unit unit
              isPlaintextMarker exampleLanguages exampleThemes ()
              (factoryOptions nordJs) (factoryOptions nordJs) exampleInit)
    as (_ & _ & _ & Hcalls & _).
  apply Hcalls; vm_compute; reflexivity.
Defined.

Lemma first_call_failure_poisons_example :
  outcome (exampleRun (Ensure unknownTheme :: twoCallers darkJs)) 1
  = Some (Throw (NotBundled Theme "solarized")) /\
  engineCalls (exampleRun (Ensure unknownTheme :: twoCallers darkJs)) = [].
Proof.
  destruct (@first_call_failure_poisons string string unit string unit unit unit
              isPlaintextMarker exampleLanguages exampleThemes () ()
              unknownTheme (twoCallers darkJs) (NotBundled Theme "solarized"))
    as (_ & Hcalls & _ & Hall).
  - vm_compute. reflexivity.
  - split; [| exact Hcalls]. apply Hall. vm_compute. lia.
Defined.

Lemma engine_failure_reaches_every_caller_example :
  outcome (exampleRun (waiting ++ EngineBuilt 0 (Some "wasm failed") :: [Ensure nordJs])) 0
  = Some (Throw (EngineFailure "wasm failed")) /\
  outcome (exampleRun (waiting ++ EngineBuilt 0 (Some "wasm failed") :: [Ensure nordJs])) 3
  = Some (Throw (EngineFailure "wasm failed")).
Proof.
  destruct (@engine_failure_reaches_every_caller
              string string unit string unit unit unit
              isPlaintextMarker exampleLanguages exampleThemes () ()
              waiting [Ensure nordJs] 0 "wasm failed")
    as (_ & _ & Hall).
  - vm_compute. reflexivity.
  - vm_compute. reflexivity.
  - split; apply Hall; vm_compute; lia.
Defined.

Lemma engine_delivery_resumes_callers_example :
  builtOf (exampleRun (waiting ++ [EngineBuilt 0 None])) 0 = Fulfilled 0 /\
  loads (exampleRun (waiting ++ [EngineBuilt 0 None])) =
    [{| target := 0; loadCall := CoreLoadTheme ["vitesse-dark.json"];
        loaded := Pending |};
     {| target := 0; loadCall := CoreLoadLanguage [LangArray ["source.js"]];
        loaded := Pending |};
     {| target := 0; loadCall := CoreLoadTheme ["vitesse-dark.json"];
        loaded := Pending |}] /\
  Forall2 (delivered isPlaintextMarker exampleLanguages exampleThemes 0)
    (calls (exampleRun waiting))
    (calls (exampleRun (waiting ++ [EngineBuilt 0 None]))).
Proof.
  destruct (@engine_delivery_resumes_callers
              string string unit string unit unit unit
              isPlaintextMarker exampleLanguages exampleThemes () () waiting 0)
    as (Hb & _ & Hloads & Hdel & _).
  - vm_compute. reflexivity.
  - vm_compute. reflexivity.
  - split; [exact Hb |]. split; [| exact Hdel].
    exact (eq_trans Hloads eq_refl).
Defined.

Lemma later_call_resolution_failure_example :
  loads
    (getShikiWithThemeLang isPlaintextMarker exampleLanguages exampleThemes () ()
       unknownTheme (exampleRun started)) = [] /\
  loads
    (getShikiWithThemeLang isPlaintextMarker exampleLanguages exampleThemes () ()
       unknownLanguage (exampleRun started))
  = [{| target := 0; loadCall := CoreLoadTheme ["vitesse-dark.json"];
        loaded := Pending |}].
Proof.
  destruct (@later_call_resolution_failure
              string string unit string unit unit unit
              isPlaintextMarker exampleLanguages exampleThemes () ()
              unknownTheme (exampleRun started) 0 0)
    as (Htheme & _); [vm_compute; reflexivity | vm_compute; reflexivity |].
  destruct (@later_call_resolution_failure
              string string unit string unit unit unit
              isPlaintextMarker exampleLanguages exampleThemes () ()
              unknownLanguage (exampleRun started) 0 0)
    as (_ & Hlang); [vm_compute; reflexivity | vm_compute; reflexivity |].
  split.
  - rewrite (Htheme (NotBundled Theme "solarized")) by (vm_compute; reflexivity).
    vm_compute. reflexivity.
  - rewrite (Hlang ["vitesse-dark.json"] (NotBundled Language "rust"))
      by (vm_compute; reflexivity).
    vm_compute. reflexivity.
Defined.

Lemma repeated_request_reaches_loads_example :
  exists o,
    engineCalls (exampleRun started) = [o] /\
    loads
      (getShikiWithThemeLang isPlaintextMarker exampleLanguages exampleThemes () ()
         nordJs (exampleRun started))
    = [{| target := 0; loadCall := CoreLoadTheme (coreThemes o); loaded := Pending |};
       {| target := 0; loadCall := CoreLoadLanguage (coreLangs o);
          loaded := Pending |}].
Proof.
  destruct (@repeated_request_reaches_loads
              string string unit string unit unit unit
              isPlaintextMarker exampleLanguages exampleThemes () ()
              started nordJs 0 0)
    as (o & Hcalls & Hshape); try (vm_compute; reflexivity).
  exists o. split; [exact Hcalls |].
  exact (eq_trans (f_equal loads Hshape) eq_refl).
Defined.

Lemma codeToHtmlThemes_keeps_order_example :
  map Some
    (toArray
       (theme
          (ensureOptions
             (codeToHtmlThemes "let x = 1"
                {| optsLang := "js"; optsThemes := threeRoles; optsObject := () |}))))
  = [Some "nord"; Some "vitesse-dark"; Some "nord"].
Proof.
  destruct (codeToHtmlThemes_keeps_order "let x = 1"
              {| optsLang := "js"; optsThemes := threeRoles; optsObject := () |})
    as (_ & Hall).
  apply Hall. repeat constructor.
Defined.

Lemma inherited_names_resolve_example :
  own exampleThemes !! "constructor" = None /\
  resolveTheme (EngineError := string) exampleThemes (ThemeId "constructor")
    = Ok "Object.prototype.constructor" /\
  getHighlighterRequest (EngineError := string) (OptionValue := unit)
    isPlaintextMarker exampleLanguages exampleThemes ()
    (Some {| themes := None; langs := Some [LangId "toString"]; others := ∅ |})
  = Ok {| coreThemes := []; coreLangs := [LangSource ()]; loadWasm := ();
          coreOthers := ∅ |}.
Proof.
  destruct (inherited_names_resolve (EngineError := string) (OptionValue := unit)
              isPlaintextMarker exampleLanguages exampleThemes () "constructor")
    as (Htheme & _).
  destruct (inherited_names_resolve (EngineError := string) (OptionValue := unit)
              isPlaintextMarker exampleLanguages exampleThemes () "toString")
    as (_ & _ & Hrequest).
  split; [vm_compute; reflexivity |]. split.
  - apply Htheme; vm_compute; reflexivity.
  - apply Hrequest; vm_compute; reflexivity.
Defined.
